(** * Top-N recommendation evaluation: [evaluation.py]

    A shallow embedding of the three functions of [src/evaluation.py]
    ([downvote_seen_items], [topn_recommendations] with its helper
    [topidx], and [model_evaluate]) together with the properties stated
    for them.

    Modelling conventions.
    - A float64 score is an extended rational ([score]): the finite
      values, the [-inf] written by the suppressor and the [+inf] that
      negating it yields.  NaN is not a score (the score matrix holds
      real numbers).  The metrics are computed in exact rational
      arithmetic; the special values of a numpy division by a zero user
      count are kept ([npfloat]).
    - A 2-D numpy array is a shape and a flat row-major buffer
      ([ndarray]); integer arrays are lists over [Z] or [nat].
    - Python exceptions are the [Raise] results of [result]; in-place
      mutation is explicit buffer passing.
    - [np.argpartition] and [np.argsort] are library kernels whose
      result is only specified up to their documented contract; they are
      the two operations of the interface [NumpySort], and a scalar
      reference instance is provided. *)

From Stdlib Require Import ZArith QArith Lia Lqa.
From stdpp Require Import base numbers list sorting gmap.

Set Default Proof Using "Type*".

(** ** Exceptions and results *)

Inductive exn : Type :=
  | AssertionError
  | ValueError
  | IndexError
  | ZeroDivisionError.

Inductive result (A : Type) : Type :=
  | Ok (a : A)
  | Raise (e : exn).
Arguments Ok {A} a.
Arguments Raise {A} e.

#[global] Instance result_ret : MRet result := λ A a, Ok a.
#[global] Instance result_bind : MBind result := λ A B f r,
  match r with
  | Ok a => f a
  | Raise e => Raise e
  end.

(** ** Scores: float64 values without NaN *)

Inductive score : Type :=
  | NegInf
  | Fin (q : Q)
  | PosInf.

#[global] Instance score_inhabited : Inhabited score := populate NegInf.

Definition score_leb (x y : score) : bool :=
  match x, y with
  | NegInf, _ => true
  | _, PosInf => true
  | Fin p, Fin q => Qle_bool p q
  | _, _ => false
  end.

Definition score_le (x y : score) : Prop := score_leb x y = true.
Definition score_ge (x y : score) : Prop := score_le y x.
Definition score_lt (x y : score) : Prop := score_leb y x = false.
Definition score_eqb (x y : score) : bool := score_leb x y && score_leb y x.

(** Unary minus on an array element. *)
Definition score_neg (x : score) : score :=
  match x with
  | NegInf => PosInf
  | Fin q => Fin (- q)
  | PosInf => NegInf
  end.

(** ** Python sequence operations *)

(** [l[s:]] *)
Definition slice_from {A} (s : Z) (l : list A) : list A :=
  let n := Z.of_nat (length l) in
  let start := if (s <? 0)%Z then Z.max (s + n) 0 else Z.min s n in
  drop (Z.to_nat start) l.

(** [l[:e]] *)
Definition slice_to {A} (e : Z) (l : list A) : list A :=
  let n := Z.of_nat (length l) in
  let stop := if (e <? 0)%Z then Z.max (e + n) 0 else Z.min e n in
  take (Z.to_nat stop) l.

(** [a[idx]] for an integer index array [idx] (no negative entries
    arise here, the indices are positions). *)
Definition gather {A} (a : list A) (idx : list nat) : result (list A) :=
  mapM (λ i, match a !! i with
             | Some x => Ok x
             | None => Raise IndexError
             end) idx.

(** ** The sorting kernels of numpy *)

(** [argpartition a k] is called with a normalised, in-range [k];
    [argsort] is numpy's default (unstable) kind.  The laws are the
    documented contracts: both return a permutation of the positions;
    after [argpartition] the element at position [k] is where a full
    sort would put it, nothing larger before it and nothing smaller
    after it; [argsort] lists the positions by ascending value. *)
Class NumpySort : Type := {
  argpartition : list score → nat → list nat;
  argsort : list score → list nat;
  argpartition_perm : ∀ a k,
    k < length a → argpartition a k ≡ₚ seq 0 (length a);
  argpartition_low : ∀ a k i,
    k < length a → i < k →
    score_le (a !!! (argpartition a k !!! i)) (a !!! (argpartition a k !!! k));
  argpartition_high : ∀ a k i,
    k < i → i < length a →
    score_le (a !!! (argpartition a k !!! k)) (a !!! (argpartition a k !!! i));
  argsort_perm : ∀ x, argsort x ≡ₚ seq 0 (length x);
  argsort_sorted : ∀ x, Sorted score_le ((λ i, x !!! i) <$> argsort x)
}.

Section selector.
Context `{NS : NumpySort}.

(** [np.argpartition(a, kth)] on a 1-D array: a negative [kth] counts
    from the end; out of bounds is a [ValueError], except on an empty
    array, which is returned as it is. *)
Definition np_argpartition (a : list score) (kth : Z) : result (list nat) :=
  let n := Z.of_nat (length a) in
  let k := if (kth <? 0)%Z then (kth + n)%Z else kth in
  if (n =? 0)%Z then Ok []
  else if ((k <? 0) || (n <=? k))%Z then Raise ValueError
  else Ok (argpartition a (Z.to_nat k)).

(** [[
def topidx(a, topn):
    parted = np.argpartition(a, -topn)[-topn:]
    return parted[np.argsort(-a[parted])]
]] *)
Definition topidx (a : list score) (topn : Z) : result (list nat) :=
  p ← np_argpartition a (- topn);
  let parted := slice_from (- topn) p in
  keys ← gather a parted;
  gather parted (argsort (score_neg <$> keys)).

End selector.

(** ** 2-D arrays *)

(** A C-contiguous float64 matrix: its shape and its row-major buffer. *)
Record ndarray : Type := mk_ndarray {
  nrows : nat;
  ncols : nat;
  flat : list score
}.

Definition ndarray_wf (m : ndarray) : Prop :=
  length (flat m) = nrows m * ncols m.

(** [m[u, :]] and [m[u, i]]. *)
Definition row (m : ndarray) (u : nat) : list score :=
  take (ncols m) (drop (u * ncols m) (flat m)).

Definition rows (m : ndarray) : list (list score) :=
  row m <$> seq 0 (nrows m).

Definition entry (m : ndarray) (u i : nat) : option score :=
  flat m !! (u * ncols m + i).

(** [np.array(list_of_rows)] for rows of length [I]. *)
Definition of_rows (I : nat) (rs : list (list score)) : ndarray :=
  mk_ndarray (length rs) I (concat rs).

Section selector_matrix.
Context `{NS : NumpySort}.

(** [np.apply_along_axis(f, 1, m, ...)]: [f] on every row; numpy
    refuses an array with no row to iterate on.  All results of
    [topidx] on one matrix have the same length, so assembling the
    output array needs no further check. *)
Definition apply_along_axis_1 {B} (f : list score → result (list B))
    (m : ndarray) : result (list (list B)) :=
  if decide (nrows m = 0) then Raise ValueError else mapM f (rows m).

(** [[
def topn_recommendations(scores, topn=10):
    recommendations = np.apply_along_axis(topidx, 1, scores, topn)
    return recommendations
]] *)
Definition topn_recommendations (scores : ndarray) (topn : Z)
    : result (list (list nat)) :=
  apply_along_axis_1 (λ a, topidx a topn) scores.

End selector_matrix.

(** ** Seen-item suppression *)

(** [np.unique] on integers: sort, then keep the first of each run. *)
Fixpoint uniq_from (prev : Z) (l : list Z) : list Z :=
  match l with
  | [] => []
  | x :: t => if (x =? prev)%Z then uniq_from prev t else x :: uniq_from x t
  end.

Definition np_unique (l : list Z) : list Z :=
  match merge_sort Z.le l with
  | [] => []
  | x :: t => x :: uniq_from x t
  end.

(** [pd.factorize(values, sort=True)]: the sorted distinct values and,
    for each input value, its position among them ([-1] is pandas'
    code for a value without a position). *)
Definition sorted_uniques (values : list Z) : list Z :=
  merge_sort Z.le (remove_dups values).

Definition code_of (uniques : list Z) (v : Z) : Z :=
  match list_find (λ u, u = v) uniques with
  | Some (i, _) => Z.of_nat i
  | None => (-1)%Z
  end.

Definition factorize_sort (values : list Z) : list Z * list Z :=
  let uniques := sorted_uniques values in
  (code_of uniques <$> values, uniques).

(** [np.ravel_multi_index((rs, cs), (U, I))] in its default mode
    ['raise']: every coordinate is checked, then flattened. *)
Definition ravel_one (U I : nat) (rc : Z * Z) : result Z :=
  let '(r, c) := rc in
  if ((0 <=? r) && (r <? Z.of_nat U) && (0 <=? c) && (c <? Z.of_nat I))%Z
  then Ok (r * Z.of_nat I + c)%Z
  else Raise ValueError.

Definition ravel_multi_index (rs cs : list Z) (U I : nat) : result (list Z) :=
  mapM (ravel_one U I) (zip rs cs).

(** [np.put(buf, idxs, v)] in its default mode ['raise']: the writes
    happen one index after the other, a negative index counts from the
    end, and an index out of bounds stops the loop with the earlier
    writes done. *)
Fixpoint put (idxs : list Z) (v : score) (buf : list score)
    : result unit * list score :=
  match idxs with
  | [] => (Ok (), buf)
  | i :: rest =>
      let size := Z.of_nat (length buf) in
      if ((i <? - size) || (size <=? i))%Z then (Raise IndexError, buf)
      else
        let j := if (i <? 0)%Z then (i + size)%Z else i in
        put rest v (<[Z.to_nat j := v]> buf)
  end.

(** An interaction table, reduced to the two columns named by the
    description: one (user identifier, item identifier) pair a record. *)
Definition interactions : Type := list (Z * Z).

(** [[
def downvote_seen_items(scores, data, data_description):
    user_idx = data[userid].values
    item_idx = data[itemid].values
    user_idx, _ = pd.factorize(user_idx, sort=True)
    seen_idx_flat = np.ravel_multi_index((user_idx, item_idx), scores.shape)
    np.put(scores, seen_idx_flat, -np.inf)
]]
    The function returns nothing and mutates [scores]: the model
    returns the outcome and the matrix as the call leaves it. *)
Definition downvote_seen_items (scores : ndarray) (data : interactions)
    : result unit * ndarray :=
  let user_idx := data.*1 in
  let item_idx := data.*2 in
  let user_idx := (factorize_sort user_idx).1 in
  match ravel_multi_index user_idx item_idx (nrows scores) (ncols scores) with
  | Raise e => (Raise e, scores)
  | Ok seen_idx_flat =>
      let '(r, buf) := put seen_idx_flat NegInf (flat scores) in
      (r, mk_ndarray (nrows scores) (ncols scores) buf)
  end.

(** ** Metrics *)

(** A float64 metric value: a number, or the [inf] and [nan] that a
    numpy division by zero yields. *)
Inductive npfloat : Type :=
  | Num (q : Q)
  | Inf
  | NaN.

(** [x / n] for a non-negative float64 [x] and a count [n].  The
    quotient, like the sum below, is the exact rational, where float64
    rounds each operation to the nearest value. *)
Definition np_divide (x : Q) (n : nat) : npfloat :=
  match n with
  | 0 => if Qeq_bool x 0 then NaN else Inf
  | _ => Num (x / inject_Z (Z.of_nat n))
  end.

(** [np.sum] of a float array and [np.mean] of a boolean array. *)
Definition np_sum (xs : list Q) : Q := foldr Qplus 0%Q xs.

Definition count_true (bs : list bool) : nat := length (filter (λ b, b = true) bs).

Definition np_mean (bs : list bool) : npfloat :=
  np_divide (inject_Z (Z.of_nat (count_true bs))) (length bs).

(** The positions of the [True] entries of one row of a mask, and
    [np.where(mask)[1]]: the column of every [True] entry, row by row. *)
Definition true_positions (bs : list bool) : list nat :=
  (λ ib, ib.1) <$> filter (λ ib, ib.2 = true) (imap (λ i b, (i, b)) bs).

Definition where_cols (mask : list (list bool)) : list nat :=
  concat (true_positions <$> mask).

(** [recommended_items[:, :topn] == holdout_items.reshape(-1, 1)] for
    arrays with the same number of rows. *)
Definition hits_mask_of (recommended_items : list (list Z))
    (holdout_items : list Z) (topn : Z) : list (list bool) :=
  zip_with (λ r t, (λ x, (x =? t)%Z) <$> slice_to topn r)
           recommended_items holdout_items.

(** [[
def model_evaluate(recommended_items, holdout, holdout_description, topn=10):
    holdout_items = holdout[itemid].values
    assert recommended_items.shape[0] == len(holdout_items)
    hits_mask = recommended_items[:, :topn] == holdout_items.reshape(-1, 1)
    hr = np.mean(hits_mask.any(axis=1))
    n_test_users = recommended_items.shape[0]
    hit_rank = np.where(hits_mask)[1] + 1.0
    mrr = np.sum(1 / hit_rank) / n_test_users
    n_items = holdout_description['n_items']
    cov = np.unique(recommended_items).size / n_items
    return hr, mrr, cov
]]
    [holdout_items] is the item column of the holdout table and
    [n_items] the Python integer of the description; the last division
    is Python's, which raises on a zero divisor. *)
Definition model_evaluate (recommended_items : list (list Z))
    (holdout_items : list Z) (n_items : Z) (topn : Z)
    : result (npfloat * npfloat * Q) :=
  if negb (length recommended_items =? length holdout_items)
  then Raise AssertionError
  else
    let hits_mask := hits_mask_of recommended_items holdout_items topn in
    let hr := np_mean (existsb id <$> hits_mask) in
    let n_test_users := length recommended_items in
    let hit_rank := (λ c, inject_Z (Z.of_nat c) + 1)%Q <$> where_cols hits_mask in
    let mrr := np_divide (np_sum ((λ r, 1 / r)%Q <$> hit_rank)) n_test_users in
    if (n_items =? 0)%Z then Raise ZeroDivisionError
    else
      let cov := (inject_Z (Z.of_nat (length (np_unique (concat recommended_items))))
                  / inject_Z n_items)%Q in
      Ok (hr, mrr, cov).

(** ** Scalar reference kernels

    Selection by repeated minimum with swaps (the scalar selection
    kernel numpy runs for a small [kth]) and insertion sort (the scalar
    sort kernel for a short array).  They inhabit [NumpySort]. *)

Definition score_ltb (x y : score) : bool := negb (score_leb y x).

(** The position, counted from [pos], of the first strictly smallest
    key of [l] below [best]; [bestpos] if there is none. *)
Fixpoint first_min_pos (a : list score) (best : score) (bestpos pos : nat)
    (l : list nat) : nat :=
  match l with
  | [] => bestpos
  | i :: l' =>
      if score_ltb (a !!! i) best
      then first_min_pos a (a !!! i) pos (S pos) l'
      else first_min_pos a best bestpos (S pos) l'
  end.

(** Swap the head of [p] with the first minimum of [p]. *)
Definition swap_head_min (a : list score) (p : list nat) : list nat :=
  match p with
  | [] => []
  | h :: t =>
      match first_min_pos a (a !!! h) 0 1 t with
      | 0 => h :: t
      | S m => (t !!! m) :: <[m := h]> t
      end
  end.

Fixpoint dumb_select (a : list score) (steps : nat) (p : list nat) : list nat :=
  match steps with
  | 0 => p
  | S s =>
      match swap_head_min a p with
      | [] => []
      | h :: t => h :: dumb_select a s t
      end
  end.

Definition scalar_argpartition (a : list score) (k : nat) : list nat :=
  dumb_select a (S k) (seq 0 (length a)).

Fixpoint insert_by (x : list score) (i : nat) (l : list nat) : list nat :=
  match l with
  | [] => [i]
  | j :: l' =>
      if score_leb (x !!! i) (x !!! j) then i :: j :: l'
      else j :: insert_by x i l'
  end.

Definition scalar_argsort (x : list score) : list nat :=
  foldr (insert_by x) [] (seq 0 (length x)).

(** * Vocabulary of the properties *)

(** ** Selection *)

Section selector_terms.
Context `{NS : NumpySort}.

(** [part[np.argsort(-a[part])]]: the positions [part] of [a] listed
    by descending score. *)
Definition sort_desc (a : list score) (part : list nat) : list nat :=
  (λ i, part !!! i) <$> argsort (score_neg <$> ((λ i, a !!! i) <$> part)).

(** The row positions kept after partitioning at [k], in the order the
    final sort gives them. *)
Definition selected (a : list score) (k : nat) : list nat :=
  sort_desc a (drop k (argpartition a k)).

(** The position at which [topidx a topn] partitions and cuts. *)
Definition cut (a : list score) (topn : Z) : nat :=
  Z.to_nat (if (topn <=? 0)%Z then - topn else Z.of_nat (length a) - topn)%Z.

End selector_terms.

(** A full descending sort of a row: all its positions, by
    non-increasing score. *)
Definition full_descending_sort (a : list score) (full : list nat) : Prop :=
  full ≡ₚ seq 0 (length a) ∧ StronglySorted score_ge ((λ i, a !!! i) <$> full).

(** What the contract pins down of a selection of [n] positions of [a]:
    the output of [topidx] satisfies it whatever the kernels are. *)
Definition top_spec (a : list score) (n : nat) (r : list nat) : Prop :=
  length r = n ∧ NoDup r ∧ Forall (λ i, i < length a) r ∧
  StronglySorted score_ge ((λ i, a !!! i) <$> r) ∧
  Forall (λ i, Forall (λ j, j ∈ r ∨ score_le (a !!! j) (a !!! i))
                      (seq 0 (length a))) r.

(** The entries of a row that are not [-inf]: the candidates left
    after suppression. *)
Definition is_neg_inf (x : score) : bool :=
  match x with
  | NegInf => true
  | _ => false
  end.

Definition candidates (a : list score) : nat :=
  length (filter (λ x, is_neg_inf x = false) a).

(** A row without ties: no two positions hold equal scores. *)
Definition tie_free (a : list score) : Prop :=
  ∀ i j, i < length a → j < length a →
    score_le (a !!! i) (a !!! j) → score_le (a !!! j) (a !!! i) → i = j.

(** The int64 array holding a list of index rows. *)
Definition index_array (recs : list (list nat)) : list (list Z) :=
  (λ r : list nat, Z.of_nat <$> r) <$> recs.

(** ** Suppression *)

(** The rank of a user identifier among the distinct identifiers of the
    table: how many distinct identifiers lie below it. *)
Definition user_rank (users : list Z) (u : Z) : nat :=
  length (filter (λ v, (v < u)%Z) (remove_dups users)).

(** The cell an interaction record addresses, and the records that fit
    a matrix of shape [(U, I)]. *)
Definition in_bounds (users : list Z) (U I : nat) (ui : Z * Z) : Prop :=
  user_rank users ui.1 < U ∧ (0 ≤ ui.2 < Z.of_nat I)%Z.

(** The flat positions written for a table. *)
Definition seen_flat (users : list Z) (I : nat) (data : interactions) : list Z :=
  (λ ui, Z.of_nat (user_rank users ui.1) * Z.of_nat I + ui.2)%Z <$> data.

(** ** Evaluation *)

(** How often the held-out item [t] occurs among the first [topn]
    entries of the recommendation row [r]. *)
Definition hit_count (topn : Z) (r : list Z) (t : Z) : nat :=
  length (filter (λ x, x = t) (slice_to topn r)).

(** ** Sample inputs *)

(** The scenario: two users, four items, nothing seen. *)
Definition scenario_row0 : list score :=
  [Fin (1 # 10); Fin (9 # 10); Fin (3 # 10); Fin (2 # 10)].
Definition scenario_row1 : list score :=
  [Fin (4 # 10); Fin (2 # 10); Fin (8 # 10); Fin (1 # 10)].
Definition scenario_scores : ndarray :=
  of_rows 4 [scenario_row0; scenario_row1].

(** A 2 x 2 matrix, a table of seen items that fits it and one that
    does not (item 2 has no column). *)
Definition example_scores : ndarray :=
  of_rows 2 [[Fin 1; Fin 2]; [Fin 3; Fin 4]].
Definition example_seen : interactions := [(10, 1); (7, 0); (10, 0)]%Z.
Definition example_misfit : interactions := [(10, 1); (7, 0); (10, 2)]%Z.

(** * Properties *)

(** ** The order on scores *)

Lemma score_le_refl x : score_le x x.
Proof.
  destruct x; unfold score_le; simpl; try done.
  apply Qle_bool_iff, Qle_refl.
Qed.

Lemma score_le_trans x y z : score_le x y → score_le y z → score_le x z.
Proof.
  unfold score_le; destruct x, y, z; simpl; try done.
  rewrite !Qle_bool_iff. apply Qle_trans.
Qed.

Lemma score_le_total x y : score_le x y ∨ score_le y x.
Proof.
  unfold score_le; destruct x, y; simpl; auto.
  rewrite !Qle_bool_iff.
  destruct (Qlt_le_dec q q0) as [Hlt|Hle]; [left; by apply Qlt_le_weak | by right].
Qed.

Lemma score_leb_false x y : score_leb x y = false → score_le y x.
Proof.
  intros Hf. destruct (score_le_total x y) as [Hle|Hle]; [|done].
  unfold score_le in Hle. congruence.
Qed.

Lemma score_neg_le x y : score_le (score_neg x) (score_neg y) ↔ score_le y x.
Proof.
  unfold score_le; destruct x, y; simpl; try done.
  rewrite !Qle_bool_iff. split; intros Hq; lra.
Qed.

#[global] Instance score_le_preorder : PreOrder score_le.
Proof. split; [exact score_le_refl | exact score_le_trans]. Qed.

#[global] Instance score_ge_trans : Transitive score_ge.
Proof. intros x y z Hxy Hyz. unfold score_ge in *. by etrans. Qed.

#[global] Instance score_le_dec x y : Decision (score_le x y).
Proof. unfold score_le. apply _. Defined.

(** ** The scalar kernels meet the contract *)

Lemma first_min_pos_spec a best bestpos pos l :
  let r := first_min_pos a best bestpos pos l in
  (r = bestpos ∧ Forall (λ i, score_le best (a !!! i)) l) ∨
  (∃ j i, r = pos + j ∧ l !! j = Some i ∧ score_le (a !!! i) best ∧
          Forall (λ i', score_le (a !!! i) (a !!! i')) l).
Proof.
  revert best bestpos pos. induction l as [|i l IH]; intros best bestpos pos; simpl.
  { left. split; [done | constructor]. }
  unfold score_ltb. destruct (score_leb best (a !!! i)) eqn:Hcmp; simpl.
  - destruct (IH best bestpos (S pos)) as [[Hr Hall] | (j & i' & Hr & Hj & Hle & Hall)].
    + left. split; [done | by constructor].
    + right. exists (S j), i'. split_and!; [lia | done | done |].
      constructor; [|done]. by etrans.
  - apply score_leb_false in Hcmp.
    destruct (IH (a !!! i) pos (S pos)) as [[Hr Hall] | (j & i' & Hr & Hj & Hle & Hall)].
    + right. exists 0, i. split_and!; [lia | done | done |].
      constructor; [reflexivity | done].
    + right. exists (S j), i'. split_and!; [lia | done | by etrans |].
      constructor; [done | done].
Qed.

Lemma swap_insert_perm {A} (t : list A) m h x :
  t !! m = Some x → x :: <[m := h]> t ≡ₚ h :: t.
Proof.
  intros Hm. rewrite insert_take_drop by (by eapply lookup_lt_Some).
  trans (h :: take m t ++ x :: drop (S m) t).
  - rewrite <- !Permutation_middle. apply perm_swap.
  - by rewrite take_drop_middle.
Qed.

Lemma swap_head_min_perm a p : swap_head_min a p ≡ₚ p.
Proof.
  destruct p as [|h t]; simpl; [done|].
  pose proof (first_min_pos_spec a (a !!! h) 0 1 t) as Hs. simpl in Hs.
  destruct (first_min_pos a (a !!! h) 0 1 t) as [|m]; [done|].
  destruct Hs as [[Hr _] | (j & i & Hr & Hj & _)]; [done|].
  assert (m = j) as -> by lia.
  rewrite (list_lookup_total_correct _ _ _ Hj). by apply swap_insert_perm.
Qed.

Lemma swap_head_min_head a p h t :
  swap_head_min a p = h :: t → Forall (λ i, score_le (a !!! h) (a !!! i)) t.
Proof.
  destruct p as [|h0 t0]; simpl; [done|].
  pose proof (first_min_pos_spec a (a !!! h0) 0 1 t0) as Hs. simpl in Hs.
  destruct (first_min_pos a (a !!! h0) 0 1 t0) as [|m].
  - intros [= <- <-]. destruct Hs as [[_ Hall] | (j & i & Hr & _)]; [done | lia].
  - destruct Hs as [[Hr _] | (j & i & Hr & Hj & Hle & Hall)]; [done|].
    assert (m = j) as -> by lia.
    rewrite (list_lookup_total_correct _ _ _ Hj). intros [= <- <-].
    apply Forall_forall. intros y Hy.
    assert (y ∈ h0 :: t0) as Hy'.
    { rewrite <- (swap_insert_perm t0 j h0 i Hj). by right. }
    apply elem_of_cons in Hy' as [-> | Hy']; [done|].
    by eapply Forall_forall in Hall.
Qed.

Lemma dumb_select_perm a s p : dumb_select a s p ≡ₚ p.
Proof.
  revert p. induction s as [|s IH]; intros p; simpl; [done|].
  pose proof (swap_head_min_perm a p) as Hp.
  destruct (swap_head_min a p) as [|h t]; [done|].
  by rewrite IH.
Qed.

Lemma dumb_select_prefix a s p i j :
  i < s → i ≤ j → j < length p →
  score_le (a !!! (dumb_select a s p !!! i)) (a !!! (dumb_select a s p !!! j)).
Proof.
  revert p i j. induction s as [|s IH]; intros p i j Hi Hij Hj; [lia|].
  simpl. pose proof (swap_head_min_perm a p) as Hp.
  pose proof (swap_head_min_head a p) as Hh.
  destruct (swap_head_min a p) as [|h t].
  { apply Permutation_length in Hp. simpl in Hp. lia. }
  specialize (Hh h t eq_refl).
  assert (length p = S (length t)) as Hlen by (by rewrite <- Hp).
  destruct j as [|j].
  { assert (i = 0) as -> by lia. reflexivity. }
  destruct i as [|i]; simpl.
  - eapply Forall_forall in Hh; [exact Hh|].
    eapply elem_of_Permutation_proper; [symmetry; apply (dumb_select_perm a s)|].
    apply list_elem_of_lookup_total_2.
    rewrite (Permutation_length (dumb_select_perm a s t)). lia.
  - apply IH; lia.
Qed.

Lemma scalar_argpartition_perm a k :
  scalar_argpartition a k ≡ₚ seq 0 (length a).
Proof. apply dumb_select_perm. Qed.

Lemma insert_by_perm x i l : insert_by x i l ≡ₚ i :: l.
Proof.
  induction l as [|j l IH]; simpl; [done|].
  destruct (score_leb _ _); [done|].
  rewrite IH. apply perm_swap.
Qed.

Lemma insert_by_sorted x i l :
  Sorted score_le ((λ i, x !!! i) <$> l) →
  Sorted score_le ((λ i, x !!! i) <$> insert_by x i l).
Proof.
  induction l as [|j l IH]; simpl; intros Hs.
  { repeat constructor. }
  destruct (score_leb (x !!! i) (x !!! j)) eqn:Hcmp; simpl.
  - constructor; [done|]. by constructor.
  - apply score_leb_false in Hcmp.
    apply Sorted_inv in Hs as [Hs Hhd]. constructor; [by apply IH|].
    destruct l as [|j' l]; simpl in *.
    + by constructor.
    + destruct (score_leb (x !!! i) (x !!! j')); simpl; constructor; [done|].
      by apply HdRel_inv in Hhd.
Qed.

Lemma scalar_argsort_perm x : scalar_argsort x ≡ₚ seq 0 (length x).
Proof.
  unfold scalar_argsort. induction (seq 0 (length x)) as [|i l IH]; simpl; [done|].
  by rewrite insert_by_perm, IH.
Qed.

Lemma scalar_argsort_sorted x :
  Sorted score_le ((λ i, x !!! i) <$> scalar_argsort x).
Proof.
  unfold scalar_argsort. induction (seq 0 (length x)) as [|i l IH]; simpl.
  - constructor.
  - by apply insert_by_sorted.
Qed.

#[global] Program Instance scalar_kernels : NumpySort := {|
  argpartition := scalar_argpartition;
  argsort := scalar_argsort
|}.
Next Obligation. intros. apply scalar_argpartition_perm. Qed.
Next Obligation.
  intros a k i Hk Hi. apply dumb_select_prefix; [lia | lia |].
  by rewrite length_seq.
Qed.
Next Obligation.
  intros a k i Hk Hi. apply dumb_select_prefix; [lia | lia |].
  by rewrite length_seq.
Qed.
Next Obligation. intros. apply scalar_argsort_perm. Qed.
Next Obligation. intros. apply scalar_argsort_sorted. Qed.

(** ** Index arrays *)

Lemma gather_in_range {A} `{Inhabited A} (a : list A) (idx : list nat) :
  Forall (λ i, i < length a) idx →
  gather a idx = Ok ((λ i, a !!! i) <$> idx).
Proof.
  unfold gather. induction 1 as [|i idx Hi _ IH]; simpl; [done|].
  apply lookup_lt_is_Some in Hi as [x Hx].
  rewrite Hx, (list_lookup_total_correct _ _ _ Hx). simpl.
  by rewrite IH.
Qed.

Lemma gather_out_of_range {A} (a : list A) (idx : list nat) :
  ¬ Forall (λ i, i < length a) idx → gather a idx = Raise IndexError.
Proof.
  unfold gather. induction idx as [|i idx IH]; intros Hn; simpl.
  { destruct Hn. constructor. }
  destruct (a !! i) as [x|] eqn:Hx; simpl; [|done].
  rewrite IH; [done|]. intros Hall. apply Hn. constructor; [|done].
  by eapply lookup_lt_Some.
Qed.

Lemma lookup_total_seq {A} `{Inhabited A} (l : list A) :
  (λ i, l !!! i) <$> seq 0 (length l) = l.
Proof.
  apply list_eq. intros i. rewrite list_lookup_fmap.
  destruct (decide (i < length l)) as [Hi|Hi].
  - rewrite lookup_seq_lt by done. simpl.
    by rewrite list_lookup_lookup_total_lt.
  - rewrite lookup_seq_ge by lia. simpl. symmetry. apply lookup_ge_None. lia.
Qed.

Lemma lookup_total_perm {A} `{Inhabited A} (l : list A) (order : list nat) :
  order ≡ₚ seq 0 (length l) → (λ i, l !!! i) <$> order ≡ₚ l.
Proof. intros Hp. rewrite Hp. by rewrite lookup_total_seq. Qed.

Lemma perm_seq_in_range (order : list nat) n :
  order ≡ₚ seq 0 n → Forall (λ i, i < n) order.
Proof.
  intros Hp. apply Forall_forall. intros i Hi.
  rewrite Hp in Hi. apply elem_of_seq in Hi. lia.
Qed.

Lemma StronglySorted_fmap_inv {A B} (f : A → B) (R1 : relation A)
    (R2 : relation B) (l : list A) :
  (∀ x y, R2 (f x) (f y) → R1 x y) →
  StronglySorted R2 (f <$> l) → StronglySorted R1 l.
Proof.
  intros Hf. induction l as [|x l IH]; simpl; intros Hs; [constructor|].
  apply StronglySorted_inv in Hs as [Hs Hall]. constructor; [by apply IH|].
  change (Forall (R2 (f x)) (f <$> l)) in Hall.
  rewrite Forall_fmap in Hall. eapply Forall_impl; [exact Hall|].
  intros y Hy. by apply Hf.
Qed.

Lemma StronglySorted_lookup {A} (R : relation A) (l : list A) i j x y :
  StronglySorted R l → i < j → l !! i = Some x → l !! j = Some y → R x y.
Proof.
  intros Hs. revert i j. induction Hs as [|z l Hs IH Hall]; intros i j Hij Hi Hj.
  { by rewrite lookup_nil in Hi. }
  destruct j as [|j]; [lia|]. destruct i as [|i]; simpl in *.
  - injection Hi as ->. eapply Forall_forall in Hall; [exact Hall|].
    by eapply list_elem_of_lookup_2.
  - eapply (IH i j); [lia | done | done].
Qed.

(** ** What [topidx] computes *)

Section selector_facts.
Context `{NS : NumpySort}.

Lemma argpartition_in_range a k :
  k < length a → Forall (λ i, i < length a) (argpartition a k).
Proof. intros Hk. by apply perm_seq_in_range, argpartition_perm. Qed.

Lemma argpartition_length a k : k < length a → length (argpartition a k) = length a.
Proof. intros Hk. by rewrite (argpartition_perm a k Hk), length_seq. Qed.

Lemma topidx_selected a topn :
  (- Z.of_nat (length a) < topn ≤ Z.of_nat (length a))%Z →
  topidx a topn = Ok (selected a (cut a topn)).
Proof.
  intros Hn. assert (cut a topn < length a) as Hk by (unfold cut; case_match; lia).
  unfold topidx, np_argpartition.
  assert ((Z.of_nat (length a) =? 0)%Z = false) as -> by lia.
  set (k := (if (- topn <? 0)%Z then _ else _)).
  assert (k = Z.of_nat (cut a topn)) as ->.
  { unfold k, cut. repeat case_match; lia. }
  assert (((Z.of_nat (cut a topn) <? 0) || (Z.of_nat (length a) <=? Z.of_nat (cut a topn)))%Z
          = false) as -> by lia.
  rewrite Nat2Z.id. simpl.
  assert (slice_from (- topn) (argpartition a (cut a topn))
          = drop (cut a topn) (argpartition a (cut a topn))) as ->.
  { unfold slice_from. rewrite argpartition_length by done. f_equal.
    unfold cut. repeat case_match; lia. }
  set (parted := drop _ _).
  assert (Forall (λ i, i < length a) parted) as Hr.
  { apply Forall_drop. by apply argpartition_in_range. }
  rewrite (gather_in_range a parted Hr). simpl.
  rewrite gather_in_range; [done|].
  eapply perm_seq_in_range. rewrite argsort_perm. by rewrite !length_fmap.
Qed.

Lemma topidx_raises a topn :
  a ≠ [] →
  (topn ≤ - Z.of_nat (length a) ∨ Z.of_nat (length a) < topn)%Z →
  topidx a topn = Raise ValueError.
Proof.
  intros Ha Hn. assert (length a ≠ 0) by (by destruct a).
  unfold topidx, np_argpartition.
  assert ((Z.of_nat (length a) =? 0)%Z = false) as -> by lia.
  set (k := (if (- topn <? 0)%Z then _ else _)).
  assert (((k <? 0) || (Z.of_nat (length a) <=? k))%Z = true) as ->; [|done].
  unfold k. repeat case_match; lia.
Qed.

Lemma sort_desc_perm a part : sort_desc a part ≡ₚ part.
Proof.
  unfold sort_desc. apply lookup_total_perm.
  rewrite argsort_perm. by rewrite !length_fmap.
Qed.

Lemma sort_desc_sorted a part :
  StronglySorted score_ge ((λ i, a !!! i) <$> sort_desc a part).
Proof.
  unfold sort_desc. set (x := score_neg <$> _).
  pose proof (argsort_sorted x) as Hs.
  pose proof (perm_seq_in_range _ _ (argsort_perm x)) as Hr.
  apply (Sorted_StronglySorted _ _) in Hs.
  assert ((λ i, x !!! i) <$> argsort x
          = score_neg <$> ((λ i, a !!! i) <$> ((λ i, part !!! i) <$> argsort x))) as Heq.
  { rewrite <- !list_fmap_compose. apply Forall_fmap_ext.
    eapply Forall_impl; [exact Hr|]. intros i Hi. simpl.
    unfold x in *. rewrite !length_fmap in Hi.
    rewrite (list_lookup_total_fmap score_neg) by (by rewrite length_fmap).
    by rewrite (list_lookup_total_fmap (λ i, a !!! i)). }
  rewrite Heq in Hs. eapply StronglySorted_fmap_inv; [|exact Hs].
  intros u v Huv. by apply score_neg_le.
Qed.

Lemma selected_perm a k :
  k < length a → selected a k ≡ₚ drop k (argpartition a k).
Proof.
  intros Hk. apply sort_desc_perm.
Qed.

Lemma selected_length a k : k < length a → length (selected a k) = length a - k.
Proof.
  intros Hk. rewrite (selected_perm a k Hk), length_drop.
  by rewrite argpartition_length.
Qed.

Lemma selected_NoDup a k : k < length a → NoDup (selected a k).
Proof.
  intros Hk. rewrite (selected_perm a k Hk).
  eapply sublist_NoDup; [|apply sublist_drop].
  rewrite (argpartition_perm a k Hk). apply NoDup_seq.
Qed.

Lemma selected_in_range a k :
  k < length a → Forall (λ i, i < length a) (selected a k).
Proof.
  intros Hk. rewrite (selected_perm a k Hk).
  apply Forall_drop. by apply argpartition_in_range.
Qed.

Lemma selected_sorted a k :
  StronglySorted score_ge ((λ i, a !!! i) <$> selected a k).
Proof. apply sort_desc_sorted. Qed.

(** Every position left of the cut scores no more than any selected one. *)
Lemma selected_dominates a k i j :
  k < length a → i ∈ selected a k → j ∈ take k (argpartition a k) →
  score_le (a !!! j) (a !!! i).
Proof.
  intros Hk Hi Hj. set (p := argpartition a k) in *.
  rewrite (selected_perm a k Hk) in Hi. fold p in Hi.
  apply list_elem_of_lookup in Hi as [m Hm]. rewrite lookup_drop in Hm.
  apply list_elem_of_lookup in Hj as [m' Hm'].
  apply lookup_take_Some in Hm' as [Hm' Hlt].
  assert (k + m < length a) as Hkm.
  { apply lookup_lt_Some in Hm. unfold p in Hm. by rewrite argpartition_length in Hm. }
  rewrite <- (list_lookup_total_correct _ _ _ Hm), <- (list_lookup_total_correct _ _ _ Hm').
  trans (a !!! (p !!! k)).
  - by apply argpartition_low.
  - destruct m as [|m].
    + rewrite Nat.add_0_r. reflexivity.
    + apply argpartition_high; [lia | done].
Qed.

Lemma selected_top a k i j :
  k < length a → i ∈ selected a k → j < length a → j ∉ selected a k →
  score_le (a !!! j) (a !!! i).
Proof.
  intros Hk Hi Hj Hnj. apply (selected_dominates a k); [done | done |].
  assert (j ∈ take k (argpartition a k) ++ drop k (argpartition a k)) as Hin.
  { rewrite take_drop, (argpartition_perm a k Hk). apply elem_of_seq. lia. }
  apply elem_of_app in Hin as [Hin | Hin]; [done|].
  rewrite <- (selected_perm a k Hk) in Hin. done.
Qed.

Lemma selected_prefix_of_full_sort a k :
  k < length a →
  ∃ full, full_descending_sort a full ∧ take (length a - k) full = selected a k.
Proof.
  intros Hk. exists (selected a k ++ sort_desc a (take k (argpartition a k))).
  split; [split|].
  - rewrite (selected_perm a k Hk), sort_desc_perm.
    rewrite (comm (++)), take_drop. by apply argpartition_perm.
  - rewrite fmap_app. apply StronglySorted_app_2.
    + intros x1 x2 Hx1 Hx2.
      apply list_elem_of_fmap in Hx1 as (i & -> & Hi).
      apply list_elem_of_fmap in Hx2 as (j & -> & Hj).
      rewrite sort_desc_perm in Hj. by apply (selected_dominates a k).
    + apply selected_sorted.
    + apply sort_desc_sorted.
  - rewrite <- (selected_length a k Hk). by rewrite take_app_length.
Qed.

(** ** Rows of a matrix *)

Lemma row_length m u :
  ndarray_wf m → u < nrows m → length (row m u) = ncols m.
Proof.
  unfold ndarray_wf, row. intros Hwf Hu.
  rewrite length_take, length_drop, Hwf. nia.
Qed.

Lemma rows_lookup m u r :
  rows m !! u = Some r → u < nrows m ∧ r = row m u.
Proof.
  unfold rows. rewrite list_lookup_fmap. intros Hr.
  destruct (seq 0 (nrows m) !! u) as [u'|] eqn:Hu; [|done].
  apply lookup_seq in Hu as [-> Hu]. simpl in Hr. by injection Hr as <-.
Qed.

Lemma mapM_Ok {A B} (f : A → result B) (g : A → B) (l : list A) :
  Forall (λ x, f x = Ok (g x)) l → mapM f l = Ok (g <$> l).
Proof.
  induction 1 as [|x l Hx _ IH]; simpl; [done|].
  by rewrite Hx, IH.
Qed.

Lemma topn_recommendations_rows (scores : ndarray) (topn : Z) :
  ndarray_wf scores → nrows scores ≠ 0 →
  (- Z.of_nat (ncols scores) < topn ≤ Z.of_nat (ncols scores))%Z →
  topn_recommendations scores topn
  = Ok ((λ a, selected a (cut a topn)) <$> rows scores).
Proof.
  intros Hwf Hu Hn. unfold topn_recommendations, apply_along_axis_1.
  rewrite decide_False by done. apply mapM_Ok.
  apply Forall_forall. intros a Ha.
  apply list_elem_of_lookup in Ha as [u Hu'].
  apply rows_lookup in Hu' as [Hlt ->].
  apply topidx_selected. by rewrite row_length.
Qed.

End selector_facts.

(** ** The selector: claims on [topidx] and [topn_recommendations] *)

Section selector_claims.
Context `{NS : NumpySort}.

Lemma topidx_Ok_inv a topn r :
  topidx a topn = Ok r →
  (a = [] ∧ r = []) ∨
  ((- Z.of_nat (length a) < topn ≤ Z.of_nat (length a))%Z ∧
   r = selected a (cut a topn)).
Proof.
  intros Hr. destruct a as [|x a].
  - left. split; [done|]. unfold topidx, np_argpartition in Hr. simpl in Hr.
    unfold slice_from in Hr. rewrite drop_nil in Hr. simpl in Hr.
    pose proof (argsort_perm []) as Hp. simpl in Hp.
    apply Permutation_nil_r in Hp. rewrite Hp in Hr. by injection Hr.
  - right.
    destruct (decide (- Z.of_nat (length (x :: a)) < topn ≤ Z.of_nat (length (x :: a)))%Z)
      as [Hn|Hn].
    + split; [done|]. rewrite topidx_selected in Hr by done. by injection Hr.
    + rewrite topidx_raises in Hr; [done | done | lia].
Qed.

(** C3 (top-N exhaustiveness): for a score matrix with at least one row
    and [1 ≤ n ≤ I], [topn_recommendations scores n] returns one index
    list a row, and the list of row [u] is an [n]-element duplicate-free
    list that agrees, as a set, with the first [n] positions of a full
    descending sort of that row. *)
Theorem topn_exhaustive (scores : ndarray) (n : Z) :
  ndarray_wf scores → nrows scores ≠ 0 →
  (1 ≤ n ≤ Z.of_nat (ncols scores))%Z →
  ∃ recs, topn_recommendations scores n = Ok recs ∧
    length recs = nrows scores ∧
    ∀ u r, recs !! u = Some r →
      length r = Z.to_nat n ∧ NoDup r ∧
      ∃ full, full_descending_sort (row scores u) full ∧
              r ≡ₚ take (Z.to_nat n) full.
Proof.
  intros Hwf Hu Hn. eexists. split; [apply topn_recommendations_rows; [done | done | lia]|].
  split. { unfold rows. by rewrite !length_fmap, length_seq. }
  intros u r Hr. rewrite list_lookup_fmap in Hr.
  destruct (rows scores !! u) as [a|] eqn:Ha; [|done].
  apply rows_lookup in Ha as [Hlt ->]. simpl in Hr. injection Hr as <-.
  pose proof (row_length scores u Hwf Hlt) as Hlen.
  set (a := row scores u) in *.
  assert (cut a n = length a - Z.to_nat n ∧ cut a n < length a) as [Hcut Hk].
  { unfold cut. case_match; lia. }
  split; [rewrite selected_length by done; lia|].
  split; [by apply selected_NoDup|].
  destruct (selected_prefix_of_full_sort a (cut a n) Hk) as (full & Hfull & Htake).
  exists full. split; [done|].
  rewrite <- Htake. replace (length a - cut a n) with (Z.to_nat n) by lia. done.
Qed.

(** C4 (top-N cardinality and order): for a score matrix with at least
    one row and [1 ≤ n ≤ I], every row of the result holds exactly [n]
    column indices, pairwise distinct and each below [I], and the scores
    at those indices, read left to right, never increase. *)
Theorem topn_cardinality_order (scores : ndarray) (n : Z) :
  ndarray_wf scores → nrows scores ≠ 0 →
  (1 ≤ n ≤ Z.of_nat (ncols scores))%Z →
  ∃ recs, topn_recommendations scores n = Ok recs ∧
    length recs = nrows scores ∧
    ∀ u r, recs !! u = Some r →
      length r = Z.to_nat n ∧ NoDup r ∧
      Forall (λ i, i < ncols scores) r ∧
      StronglySorted score_ge ((λ i, row scores u !!! i) <$> r).
Proof.
  intros Hwf Hu Hn. eexists. split; [apply topn_recommendations_rows; [done | done | lia]|].
  split. { unfold rows. by rewrite !length_fmap, length_seq. }
  intros u r Hr. rewrite list_lookup_fmap in Hr.
  destruct (rows scores !! u) as [a|] eqn:Ha; [|done].
  apply rows_lookup in Ha as [Hlt ->]. simpl in Hr. injection Hr as <-.
  pose proof (row_length scores u Hwf Hlt) as Hlen.
  set (a := row scores u) in *.
  assert (cut a n = length a - Z.to_nat n ∧ cut a n < length a) as [Hcut Hk].
  { unfold cut. case_match; lia. }
  split; [rewrite selected_length by done; lia|].
  split; [by apply selected_NoDup|].
  split; [rewrite <- Hlen; by apply selected_in_range|].
  apply selected_sorted.
Qed.

(** C5, as amended (order of the selected indices): whenever [topidx]
    returns, a selected index with a strictly higher score stands
    before every selected index with a lower one.  The relative order of
    equal scores is whatever the two kernels produce. *)
Theorem topidx_strict_order (a : list score) (n : Z) (r : list nat)
    (pi pj i j : nat) :
  topidx a n = Ok r →
  r !! pi = Some i → r !! pj = Some j →
  score_lt (a !!! j) (a !!! i) →
  pi < pj.
Proof.
  intros Hr Hi Hj Hlt.
  apply topidx_Ok_inv in Hr as [[_ ->] | [_ ->]]; [by rewrite lookup_nil in Hi|].
  pose proof (selected_sorted a (cut a n)) as Hs.
  unfold score_lt in Hlt.
  destruct (decide (pi < pj)) as [|Hge]; [done|]. exfalso.
  destruct (decide (pi = pj)) as [->|Hne].
  - rewrite Hi in Hj. injection Hj as ->.
    pose proof (score_le_refl (a !!! j)) as Hrefl. unfold score_le in Hrefl. congruence.
  - assert (score_ge (a !!! j) (a !!! i)) as Hji.
    { eapply (StronglySorted_lookup _ _ pj pi); [exact Hs | lia | |];
        rewrite list_lookup_fmap; [by rewrite Hj | by rewrite Hi]. }
    unfold score_ge, score_le in Hji. congruence.
Qed.

(** C6, as amended (degenerate N): on a non-empty row of length [I] the
    selector returns exactly when [-I < n ≤ I] and raises [ValueError]
    for every other [n]; for [n = I], and for [n = 0], it returns all
    [I] positions by non-increasing score. *)
Theorem topidx_degenerate_n (a : list score) (n : Z) :
  a ≠ [] →
  ((- Z.of_nat (length a) < n ≤ Z.of_nat (length a))%Z →
     ∃ r, topidx a n = Ok r) ∧
  ((n ≤ - Z.of_nat (length a) ∨ Z.of_nat (length a) < n)%Z →
     topidx a n = Raise ValueError) ∧
  (n = Z.of_nat (length a) ∨ n = 0%Z →
     ∃ r, topidx a n = Ok r ∧ full_descending_sort a r).
Proof.
  intros Ha. assert (0 < length a) as Hlen by (destruct a; [done | simpl; lia]).
  split; [|split].
  - intros Hn. eexists. by apply topidx_selected.
  - by apply topidx_raises.
  - intros Hn. exists (selected a 0).
    assert (cut a n = 0) as Hcut by (unfold cut; case_match; lia).
    split; [rewrite topidx_selected by lia; by rewrite Hcut|].
    split; [|apply selected_sorted].
    rewrite selected_perm by done. rewrite drop_0. by apply argpartition_perm.
Qed.

End selector_claims.

(** ** The selector on concrete rows *)

#[global] Instance score_ge_dec x y : Decision (score_ge x y).
Proof. unfold score_ge. apply _. Defined.

#[global] Instance top_spec_dec a n r : Decision (top_spec a n r).
Proof. unfold top_spec. apply _. Defined.

Lemma selected_top_spec `{NS : NumpySort} (a : list score) (k : nat) :
  k < length a → top_spec a (length a - k) (selected a k).
Proof.
  intros Hk. unfold top_spec.
  split_and!; [by apply selected_length | by apply selected_NoDup
              | by apply selected_in_range | apply selected_sorted |].
  apply Forall_forall. intros i Hi. apply Forall_forall. intros j Hj.
  apply elem_of_seq in Hj.
  destruct (decide (j ∈ selected a k)) as [|Hnj]; [by left|right].
  apply (selected_top a k); [done | done | lia | done].
Qed.

(** Case analysis on a bounded position. *)
Ltac cases_below x Hx :=
  repeat (destruct x as [|x]; [|apply (proj2 (Nat.succ_lt_mono _ _)) in Hx]);
  try (exfalso; lia).

Lemma scenario_row0_top r : top_spec scenario_row0 2 r → r = [1; 2].
Proof.
  intros H. pose proof H as (Hlen & _ & Hb & _).
  destruct r as [|x [|y [|z r]]]; try discriminate Hlen.
  apply Forall_cons in Hb as [Hx Hb]. apply Forall_cons in Hb as [Hy _].
  apply (bool_decide_pack _) in H. simpl in Hx, Hy.
  cases_below x Hx; cases_below y Hy;
    first [reflexivity | exfalso; vm_compute in H; exact H].
Qed.

Lemma scenario_row1_top r : top_spec scenario_row1 2 r → r = [2; 0].
Proof.
  intros H. pose proof H as (Hlen & _ & Hb & _).
  destruct r as [|x [|y [|z r]]]; try discriminate Hlen.
  apply Forall_cons in Hb as [Hx Hb]. apply Forall_cons in Hb as [Hy _].
  apply (bool_decide_pack _) in H. simpl in Hx, Hy.
  cases_below x Hx; cases_below y Hy;
    first [reflexivity | exfalso; vm_compute in H; exact H].
Qed.

(** C1 (end-to-end scenario): whatever kernels implement the numpy
    contract, the scenario matrix with [topn = 2] yields exactly
    [[1,2],[2,0]], and evaluating that result against the holdout truth
    [1, 0] with [n_items = 4] gives [hr = 1], [mrr = 0.75] and
    [coverage = 0.75]. *)
Theorem scenario_end_to_end `{NS : NumpySort} :
  topn_recommendations scenario_scores 2 = Ok [[1; 2]; [2; 0]] ∧
  ∃ hr mrr cov,
    model_evaluate (index_array [[1; 2]; [2; 0]]) [1; 0]%Z 4 2
      = Ok (Num hr, Num mrr, cov) ∧
    (hr == 1)%Q ∧ (mrr == 3 # 4)%Q ∧ (cov == 3 # 4)%Q.
Proof.
  split.
  - rewrite topn_recommendations_rows; [|reflexivity|done|simpl; lia].
    change (rows scenario_scores) with [scenario_row0; scenario_row1].
    pose proof (selected_top_spec scenario_row0 2 ltac:(simpl; lia)) as H0.
    pose proof (selected_top_spec scenario_row1 2 ltac:(simpl; lia)) as H1.
    apply scenario_row0_top in H0. apply scenario_row1_top in H1.
    simpl. change (cut scenario_row0 2) with 2. change (cut scenario_row1 2) with 2.
    by rewrite H0, H1.
  - do 3 eexists. split; [vm_compute; reflexivity|].
    split_and!; reflexivity.
Qed.

(** The scalar kernels on a row with a tie: columns 0 and 2 both score
    5 and come out as [2; 0]. *)
Example topidx_tie : topidx [Fin 5; Fin 1; Fin 5; Fin 0] 2 = Ok [2; 0].
Proof. reflexivity. Qed.

(** A row whose tie is among the two best: columns 0 and 1 both score
    2 and come out as [1; 0]. *)
Example topidx_tie_top : topidx [Fin 2; Fin 2; Fin 1; Fin 0] 2 = Ok [1; 0].
Proof. reflexivity. Qed.

(** C5 as stated fails: equal scores are not kept in column order. *)
Lemma tie_break_not_stable :
  ¬ (∀ (NS : NumpySort) (a : list score) (n : Z) (r : list nat)
       (pi pj i j : nat),
       topidx a n = Ok r →
       r !! pi = Some i → r !! pj = Some j →
       i < j → score_eqb (a !!! i) (a !!! j) = true →
       pi < pj).
Proof.
  intros Hstable.
  pose proof (Hstable scalar_kernels [Fin 2; Fin 2; Fin 1; Fin 0] 2%Z [1; 0]
                1 0 0 1 eq_refl eq_refl eq_refl) as Hlt.
  assert (1 < 0) as Habs by (apply Hlt; [lia | reflexivity]).
  lia.
Qed.

Lemma topidx_strict_order_witness :
  topidx scenario_row0 2 = Ok [1; 2] ∧ 0 < 1.
Proof.
  split; [reflexivity|].
  apply (topidx_strict_order scenario_row0 2 [1; 2] 0 1 1 2);
    reflexivity.
Defined.

(** C6 as stated fails: a request for more items than the row has is
    refused by [np.argpartition]. *)
Lemma degenerate_n_raises :
  ¬ (∀ (NS : NumpySort) (a : list score) (n : Z),
       (n ≤ 0 ∨ Z.of_nat (length a) ≤ n)%Z →
       ∃ r, topidx a n = Ok r ∧
            ((Z.of_nat (length a) ≤ n)%Z → full_descending_sort a r)).
Proof.
  intros Hok.
  destruct (Hok scalar_kernels [Fin 1; Fin 2] 3%Z) as (r & Hr & _);
    [simpl; lia|].
  discriminate Hr.
Qed.

Lemma topidx_degenerate_n_witness :
  ((- 2 < 2 ≤ 2)%Z → ∃ r, topidx [Fin 1; Fin 2] 2 = Ok r) ∧
  ((2 ≤ - 2 ∨ 2 < 2)%Z → topidx [Fin 1; Fin 2] 2 = Raise ValueError) ∧
  (2%Z = 2%Z ∨ 2%Z = 0%Z →
     ∃ r, topidx [Fin 1; Fin 2] 2 = Ok r ∧ full_descending_sort [Fin 1; Fin 2] r).
Proof. apply (topidx_degenerate_n [Fin 1; Fin 2] 2). done. Defined.

Lemma topn_exhaustive_witness :
  ∃ recs, topn_recommendations scenario_scores 2 = Ok recs ∧
    length recs = 2 ∧
    ∀ u r, recs !! u = Some r →
      length r = 2 ∧ NoDup r ∧
      ∃ full, full_descending_sort (row scenario_scores u) full ∧
              r ≡ₚ take 2 full.
Proof.
  apply (topn_exhaustive scenario_scores 2); [reflexivity | done | simpl; lia].
Defined.

Lemma topn_cardinality_order_witness :
  ∃ recs, topn_recommendations scenario_scores 2 = Ok recs ∧
    length recs = 2 ∧
    ∀ u r, recs !! u = Some r →
      length r = 2 ∧ NoDup r ∧
      Forall (λ i, i < 4) r ∧
      StronglySorted score_ge ((λ i, row scenario_scores u !!! i) <$> r).
Proof.
  apply (topn_cardinality_order scenario_scores 2);
    [reflexivity | done | simpl; lia].
Defined.

(** ** Seen-item suppression *)

#[global] Instance in_bounds_dec users U I ui : Decision (in_bounds users U I ui).
Proof. unfold in_bounds. apply _. Defined.

Lemma filter_all {A} (P : A → Prop) `{∀ x, Decision (P x)} (l : list A) :
  Forall P l → filter P l = l.
Proof.
  induction 1 as [|x l Hx _ IH]; [done|].
  rewrite filter_cons, decide_True by done. by rewrite IH.
Qed.

Lemma filter_none {A} (P : A → Prop) `{∀ x, Decision (P x)} (l : list A) :
  Forall (λ x, ¬ P x) l → filter P l = [].
Proof.
  induction 1 as [|x l Hx _ IH]; [done|].
  by rewrite filter_cons, decide_False.
Qed.

Lemma sorted_filter_below (l1 l2 : list Z) (u : Z) :
  StronglySorted Z.le (l1 ++ u :: l2) → NoDup (l1 ++ u :: l2) →
  filter (λ v, (v < u)%Z) (l1 ++ u :: l2) = l1.
Proof.
  intros Hs Hnd. rewrite filter_app, filter_cons, decide_False by lia.
  apply StronglySorted_app in Hs as (Hle & _ & Hs2).
  apply StronglySorted_inv in Hs2 as [_ Hge].
  apply NoDup_app in Hnd as (_ & Hne & _).
  rewrite (filter_none _ l2), app_nil_r.
  - apply filter_all, Forall_forall. intros v Hv.
    assert (v ≤ u)%Z by (apply Hle; [done | by left]).
    assert (v ≠ u) by (intros ->; apply (Hne u Hv); by left). lia.
  - eapply Forall_impl; [exact Hge|]. intros v Hv. simpl in Hv. lia.
Qed.

(** The code [pd.factorize(..., sort=True)] gives a user identifier is
    its rank among the distinct identifiers. *)
Lemma code_of_rank (users : list Z) (u : Z) :
  u ∈ users → code_of (sorted_uniques users) u = Z.of_nat (user_rank users u).
Proof.
  intros Hu. unfold code_of, user_rank, sorted_uniques.
  set (s := merge_sort Z.le (remove_dups users)).
  assert (s ≡ₚ remove_dups users) as Hp by apply merge_sort_Permutation.
  assert (StronglySorted Z.le s) as Hs by (apply StronglySorted_merge_sort; apply _).
  assert (NoDup s) as Hnd by (rewrite Hp; apply NoDup_remove_dups).
  assert (u ∈ s) as Hin by (rewrite Hp; by apply elem_of_remove_dups).
  destruct (list_find (λ v, v = u) s) as [[i v]|] eqn:Hf.
  - apply list_find_Some in Hf as (Hi & -> & _).
    rewrite <- Hp. pose proof (take_drop_middle s i u Hi) as Hsplit.
    apply lookup_lt_Some in Hi.
    rewrite <- Hsplit in Hs, Hnd |- *.
    rewrite sorted_filter_below by done.
    rewrite length_take. lia.
  - apply list_find_None in Hf. eapply Forall_forall in Hf; [|exact Hin]. done.
Qed.

Lemma factorize_sort_codes (users : list Z) :
  (factorize_sort users).1 = (λ u, Z.of_nat (user_rank users u)) <$> users.
Proof.
  unfold factorize_sort. simpl. apply Forall_fmap_ext, Forall_forall.
  intros u Hu. by apply code_of_rank.
Qed.

Lemma zip_codes {A B C} (f : A → C) (data : list (A * B)) :
  zip (f <$> data.*1) data.*2 = (λ ui, (f ui.1, ui.2)) <$> data.
Proof.
  induction data as [|[u i] data IH]; [done|].
  simpl. f_equal. exact IH.
Qed.

Lemma mapM_Raise {A B} (f : A → result B) (e : exn) (l : list A) x :
  x ∈ l → f x = Raise e → (∀ y e', f y = Raise e' → e' = e) →
  mapM f l = Raise e.
Proof.
  intros Hx Hfx Hall. induction Hx as [x l | x y l Hx IH]; simpl.
  - by rewrite Hfx.
  - destruct (f y) as [b|e'] eqn:Hy; simpl.
    + by rewrite IH.
    + by rewrite (Hall y e' Hy).
Qed.

Lemma ravel_one_Ok U I r c :
  r < U → (0 ≤ c < Z.of_nat I)%Z →
  ravel_one U I (Z.of_nat r, c) = Ok (Z.of_nat r * Z.of_nat I + c)%Z.
Proof.
  intros Hr Hc. unfold ravel_one.
  assert (((0 <=? Z.of_nat r) && (Z.of_nat r <? Z.of_nat U) && (0 <=? c)
           && (c <? Z.of_nat I))%Z = true) as -> by lia.
  done.
Qed.

Lemma ravel_one_Raise U I r c :
  ¬ (r < U ∧ (0 ≤ c < Z.of_nat I)%Z) →
  ravel_one U I (Z.of_nat r, c) = Raise ValueError.
Proof.
  intros Hn. unfold ravel_one.
  assert (((0 <=? Z.of_nat r) && (Z.of_nat r <? Z.of_nat U) && (0 <=? c)
           && (c <? Z.of_nat I))%Z = false) as -> by lia.
  done.
Qed.

Lemma ravel_one_error U I rc e : ravel_one U I rc = Raise e → e = ValueError.
Proof. destruct rc as [r c]. unfold ravel_one. case_match; congruence. Qed.

Lemma ravel_in_bounds (data : interactions) U I :
  Forall (in_bounds data.*1 U I) data →
  ravel_multi_index (factorize_sort data.*1).1 data.*2 U I
  = Ok (seen_flat data.*1 I data).
Proof.
  intros Hb. unfold ravel_multi_index, seen_flat.
  rewrite factorize_sort_codes, zip_codes.
  rewrite (mapM_Ok _ (λ rc, rc.1 * Z.of_nat I + rc.2)%Z).
  - by rewrite <- list_fmap_compose.
  - apply Forall_fmap. eapply Forall_impl; [exact Hb|].
    intros [u i] [Hu Hi]. simpl in *. by apply ravel_one_Ok.
Qed.

Lemma ravel_out_of_bounds (data : interactions) U I :
  ¬ Forall (in_bounds data.*1 U I) data →
  ravel_multi_index (factorize_sort data.*1).1 data.*2 U I = Raise ValueError.
Proof.
  intros Hb. apply not_Forall_Exists in Hb; [|apply _].
  apply Exists_exists in Hb as ([u i] & Hin & Hn).
  unfold ravel_multi_index. rewrite factorize_sort_codes, zip_codes.
  eapply (mapM_Raise _ _ _ (Z.of_nat (user_rank data.*1 u), i)).
  - apply list_elem_of_fmap. by exists (u, i).
  - by apply ravel_one_Raise.
  - intros y e'. apply ravel_one_error.
Qed.

Lemma put_in_range (idxs : list Z) (v : score) (buf : list score) :
  Forall (λ i, (0 ≤ i < Z.of_nat (length buf))%Z) idxs →
  ∃ buf', put idxs v buf = (Ok (), buf') ∧ length buf' = length buf ∧
    ∀ k, buf' !! k
         = if decide (k < length buf ∧ Z.of_nat k ∈ idxs) then Some v
           else buf !! k.
Proof.
  revert buf. induction idxs as [|i idxs IH]; intros buf Hb.
  { exists buf. split_and!; [done | done |]. intros k.
    rewrite decide_False; [done|]. intros [_ Hk]. by apply elem_of_nil in Hk. }
  apply Forall_cons in Hb as [Hi Hb]. simpl.
  assert (((i <? - Z.of_nat (length buf)) || (Z.of_nat (length buf) <=? i))%Z = false)
    as -> by lia.
  assert ((i <? 0)%Z = false) as -> by lia.
  destruct (IH (<[Z.to_nat i := v]> buf)) as (buf' & Hput & Hlen & Hlook).
  { by rewrite length_insert. }
  rewrite length_insert in Hlen, Hlook.
  exists buf'. split_and!; [done | done |]. intros k. rewrite Hlook.
  destruct (decide (k = Z.to_nat i)) as [->|Hne].
  - rewrite list_lookup_insert_eq by lia.
    rewrite (decide_True (P := _ ∧ Z.of_nat (Z.to_nat i) ∈ i :: idxs)).
    + by case_decide.
    + split; [lia|]. rewrite Z2Nat.id by lia. by left.
  - rewrite list_lookup_insert_ne by done.
    destruct (decide (k < length buf ∧ Z.of_nat k ∈ idxs)) as [[Hk Hin]|Hn].
    + rewrite decide_True; [done | split; [done | by right]].
    + rewrite decide_False; [done|]. intros [Hk Hin].
      apply elem_of_cons in Hin as [Heq|Hin]; [lia | by apply Hn].
Qed.

(** C2 (suppression correctness with frame condition): when every
    record of the table fits the matrix, [downvote_seen_items] returns
    normally, leaves the shape alone, sets the entry at (rank of the
    user identifier, item) to [-inf] for every record, and changes no
    other entry. *)
Theorem downvote_suppresses (scores : ndarray) (data : interactions) :
  ndarray_wf scores →
  Forall (in_bounds data.*1 (nrows scores) (ncols scores)) data →
  ∃ scores', downvote_seen_items scores data = (Ok (), scores') ∧
    nrows scores' = nrows scores ∧ ncols scores' = ncols scores ∧
    ndarray_wf scores' ∧
    (∀ u i, (u, i) ∈ data →
       entry scores' (user_rank data.*1 u) (Z.to_nat i) = Some NegInf) ∧
    (∀ r c, c < ncols scores →
       (∀ u i, (u, i) ∈ data → ¬ (user_rank data.*1 u = r ∧ i = Z.of_nat c)) →
       entry scores' r c = entry scores r c).
Proof.
  intros Hwf Hb. unfold downvote_seen_items.
  rewrite ravel_in_bounds by done.
  set (U := nrows scores) in *. set (I := ncols scores) in *.
  assert (Forall (λ i, (0 ≤ i < Z.of_nat (length (flat scores)))%Z)
                 (seen_flat data.*1 I data)) as Hflat.
  { unfold seen_flat. apply Forall_fmap. eapply Forall_impl; [exact Hb|].
    intros [u i] [Hu Hi]. simpl in *. rewrite Hwf. fold U I. nia. }
  destruct (put_in_range _ NegInf _ Hflat) as (buf' & -> & Hlen & Hlook).
  eexists. split; [done|]. simpl. fold U I.
  split_and!; [done | done | unfold ndarray_wf; simpl; by rewrite Hlen | |].
  - intros u i Hin. unfold entry. simpl. rewrite Hlook.
    eapply Forall_forall in Hb as [Hu Hi]; [|exact Hin]. simpl in *.
    rewrite decide_True; [done|]. split; [rewrite Hwf; fold U I; nia|].
    unfold seen_flat. apply list_elem_of_fmap. exists (u, i).
    split; [simpl; lia | done].
  - intros r c Hc Hfree. unfold entry. simpl. rewrite Hlook.
    rewrite decide_False; [done|]. intros [_ Hin].
    unfold seen_flat in Hin. apply list_elem_of_fmap in Hin as ([u i] & Heq & Hin).
    simpl in Heq. apply (Hfree u i Hin).
    eapply Forall_forall in Hb as [Hu Hi]; [|exact Hin]. simpl in *.
    assert (user_rank data.*1 u = r) by nia. split; [done | nia].
Qed.

(** C10 (suppression atomicity on a bounds error): if some record of
    the table does not fit the matrix, [downvote_seen_items] raises
    (a [ValueError], from the index flattening) and leaves the score
    matrix exactly as it was. *)
Theorem downvote_atomic (scores : ndarray) (data : interactions) :
  (∃ ui, ui ∈ data ∧ ¬ in_bounds data.*1 (nrows scores) (ncols scores) ui) →
  downvote_seen_items scores data = (Raise ValueError, scores).
Proof.
  intros (ui & Hin & Hn). unfold downvote_seen_items.
  rewrite ravel_out_of_bounds; [done|].
  intros Hall. by eapply Forall_forall in Hall.
Qed.

Lemma downvote_suppresses_witness :
  ∃ scores', downvote_seen_items example_scores example_seen = (Ok (), scores') ∧
    nrows scores' = 2 ∧ ncols scores' = 2 ∧
    ndarray_wf scores' ∧
    (∀ u i, (u, i) ∈ example_seen →
       entry scores' (user_rank example_seen.*1 u) (Z.to_nat i) = Some NegInf) ∧
    (∀ r c, c < 2 →
       (∀ u i, (u, i) ∈ example_seen →
          ¬ (user_rank example_seen.*1 u = r ∧ i = Z.of_nat c)) →
       entry scores' r c = entry example_scores r c).
Proof.
  apply (downvote_suppresses example_scores example_seen); [reflexivity|].
  apply (bool_decide_unpack _). vm_compute. exact I.
Defined.

Lemma downvote_atomic_witness :
  downvote_seen_items example_scores example_misfit
  = (Raise ValueError, example_scores).
Proof.
  apply (downvote_atomic example_scores example_misfit).
  exists (10, 2)%Z. split.
  - apply (bool_decide_unpack _). vm_compute. exact I.
  - apply (bool_decide_unpack _). vm_compute. exact I.
Defined.

(** ** The evaluator *)

Lemma model_evaluate_mismatch recs holdout n_items topn :
  length recs ≠ length holdout →
  model_evaluate recs holdout n_items topn = Raise AssertionError.
Proof.
  intros Hne. unfold model_evaluate.
  by assert ((length recs =? length holdout) = false) as -> by (by apply Nat.eqb_neq).
Qed.

Lemma model_evaluate_zero recs holdout topn :
  length recs = length holdout →
  model_evaluate recs holdout 0 topn = Raise ZeroDivisionError.
Proof.
  intros He. unfold model_evaluate.
  by assert ((length recs =? length holdout) = true) as -> by (by apply Nat.eqb_eq).
Qed.

Lemma model_evaluate_returns recs holdout n_items topn :
  length recs = length holdout → n_items ≠ 0%Z →
  model_evaluate recs holdout n_items topn
  = Ok (np_mean (existsb id <$> hits_mask_of recs holdout topn),
        np_divide (np_sum ((λ r, 1 / r)%Q <$>
                     ((λ c, inject_Z (Z.of_nat c) + 1)%Q <$>
                        where_cols (hits_mask_of recs holdout topn))))
                  (length recs),
        (inject_Z (Z.of_nat (length (np_unique (concat recs))))
         / inject_Z n_items)%Q).
Proof.
  intros He Hn. unfold model_evaluate.
  assert ((length recs =? length holdout) = true) as -> by (by apply Nat.eqb_eq).
  by assert ((n_items =? 0)%Z = false) as -> by lia.
Qed.

(** C7 as stated fails: with matching row counts and [n_items = 0] the
    evaluator neither fails its assertion nor returns the metrics. *)
Lemma evaluator_zero_catalog :
  ¬ (∀ recs holdout n_items topn,
       (model_evaluate recs holdout n_items topn = Raise AssertionError
        ↔ length recs ≠ length holdout) ∧
       (length recs = length holdout →
        ∃ hr mrr cov, model_evaluate recs holdout n_items topn = Ok (hr, mrr, cov))).
Proof.
  intros Hclaim.
  destruct (Hclaim [[0%Z]] [0%Z] 0%Z 1%Z) as [_ Hret].
  destruct (Hret eq_refl) as (hr & mrr & cov & Hr). discriminate Hr.
Qed.

(** C7, as amended (evaluator precondition check): [model_evaluate]
    fails with [AssertionError] if and only if the row count of the
    recommendation matrix differs from the number of holdout records;
    when they are equal and [n_items] is not zero it returns the three
    metrics, and with [n_items = 0] the final division raises
    [ZeroDivisionError]. *)
Theorem evaluator_precondition (recs : list (list Z)) (holdout : list Z)
    (n_items topn : Z) :
  (model_evaluate recs holdout n_items topn = Raise AssertionError
   ↔ length recs ≠ length holdout) ∧
  (length recs = length holdout → n_items ≠ 0%Z →
   ∃ hr mrr cov, model_evaluate recs holdout n_items topn = Ok (hr, mrr, cov)) ∧
  (length recs = length holdout → n_items = 0%Z →
   model_evaluate recs holdout n_items topn = Raise ZeroDivisionError).
Proof.
  split; [split|split].
  - intros Hr Heq. destruct (decide (n_items = 0%Z)) as [->|Hn].
    + by rewrite model_evaluate_zero in Hr.
    + by rewrite model_evaluate_returns in Hr.
  - apply model_evaluate_mismatch.
  - intros Heq Hn. rewrite model_evaluate_returns by done. by do 3 eexists.
  - intros Heq ->. by apply model_evaluate_zero.
Qed.

(** *** Coverage *)

Lemma uniq_from_elem_of (x : Z) (t : list Z) (y : Z) :
  y ∈ x :: uniq_from x t ↔ y ∈ x :: t.
Proof.
  revert x. induction t as [|z t IH]; intros x; simpl; [done|].
  destruct (Z.eqb_spec z x) as [->|Hne].
  - rewrite IH, !elem_of_cons. tauto.
  - rewrite !(elem_of_cons _ y x). by rewrite IH.
Qed.

Lemma uniq_from_NoDup (x : Z) (t : list Z) :
  StronglySorted Z.le (x :: t) → NoDup (x :: uniq_from x t).
Proof.
  revert x. induction t as [|z t IH]; intros x Hs; simpl.
  { apply NoDup_singleton. }
  apply StronglySorted_inv in Hs as [Hs Hx].
  destruct (Z.eqb_spec z x) as [->|Hne].
  - by apply IH.
  - apply NoDup_cons. split; [|by apply IH].
    rewrite uniq_from_elem_of. intros Hin.
    apply Forall_cons in Hx as [Hxz _].
    apply StronglySorted_inv in Hs as [_ Hz].
    apply elem_of_cons in Hin as [->|Hin]; [done|].
    eapply Forall_forall in Hz; [|exact Hin]. lia.
Qed.

Lemma np_unique_NoDup (l : list Z) : NoDup (np_unique l).
Proof.
  unfold np_unique.
  assert (StronglySorted Z.le (merge_sort Z.le l)) as Hs
    by (apply StronglySorted_merge_sort; apply _).
  destruct (merge_sort Z.le l) as [|x t]; [constructor|].
  by apply uniq_from_NoDup.
Qed.

Lemma np_unique_elem_of (l : list Z) (y : Z) : y ∈ np_unique l ↔ y ∈ l.
Proof.
  unfold np_unique. rewrite <- (merge_sort_Permutation Z.le l) at 2.
  destruct (merge_sort Z.le l) as [|x t]; [done|].
  apply uniq_from_elem_of.
Qed.

(** [np.unique(...).size] is the number of distinct values. *)
Lemma np_unique_size (l : list Z) :
  length (np_unique l) = size (list_to_set l : gset Z).
Proof.
  rewrite <- (size_list_to_set (C := gset Z)) by apply np_unique_NoDup.
  f_equal. apply set_eq. intros y.
  by rewrite !elem_of_list_to_set, np_unique_elem_of.
Qed.

Lemma np_unique_bounded (l : list Z) (n : Z) :
  Forall (λ x, (0 ≤ x < n)%Z) l → length (np_unique l) ≤ Z.to_nat n.
Proof.
  intros Hl. rewrite <- (length_seqZ 0 n).
  apply submseteq_length, NoDup_submseteq; [apply np_unique_NoDup|].
  intros y Hy. rewrite np_unique_elem_of in Hy.
  eapply Forall_forall in Hl; [|exact Hy]. apply elem_of_seqZ. lia.
Qed.

(** C9 (coverage definition and bound): when the evaluator returns,
    coverage is the number of distinct item indices in the whole
    recommendation matrix, whatever [topn] is, divided by [n_items];
    and it lies in [0, 1] when every recommended index lies in
    [[0, n_items)]. *)
Theorem coverage_definition_bound (recs : list (list Z)) (holdout : list Z)
    (n_items topn : Z) :
  length recs = length holdout → n_items ≠ 0%Z →
  ∃ hr mrr cov,
    model_evaluate recs holdout n_items topn = Ok (hr, mrr, cov) ∧
    cov = (inject_Z (Z.of_nat (size (list_to_set (concat recs) : gset Z)))
           / inject_Z n_items)%Q ∧
    (Forall (Forall (λ x, (0 ≤ x < n_items)%Z)) recs → (0 <= cov <= 1)%Q).
Proof.
  intros Heq Hn. rewrite model_evaluate_returns by done.
  do 3 eexists. split; [done|]. split; [by rewrite np_unique_size|].
  intros Hb. assert (Forall (λ x, (0 ≤ x < n_items)%Z) (concat recs)) as Hc.
  { apply Forall_concat. exact Hb. }
  apply np_unique_bounded in Hc.
  set (d := length (np_unique (concat recs))) in *.
  destruct (decide (0 < n_items)%Z) as [Hpos|Hneg].
  - assert (0 < inject_Z n_items)%Q as Hq.
    { change 0%Q with (inject_Z 0). rewrite <- Zlt_Qlt. lia. }
    split.
    + apply Qle_shift_div_l; [done|]. rewrite Qmult_0_l.
      change 0%Q with (inject_Z 0). rewrite <- Zle_Qle. lia.
    + apply Qle_shift_div_r; [done|]. rewrite Qmult_1_l.
      rewrite <- Zle_Qle. lia.
  - assert (d = 0) as -> by lia. simpl.
    assert (0 / inject_Z n_items == 0)%Q as -> by (unfold Qdiv; apply Qmult_0_l).
    split; [apply Qle_refl | done].
Qed.

Lemma coverage_definition_bound_witness :
  ∃ hr mrr cov,
    model_evaluate [[1; 2]; [2; 0]]%Z [1; 0]%Z 4 2 = Ok (hr, mrr, cov) ∧
    cov = (inject_Z (Z.of_nat (size (list_to_set (concat [[1; 2]; [2; 0]]%Z) : gset Z)))
           / inject_Z 4)%Q ∧
    (Forall (Forall (λ x, (0 ≤ x < 4)%Z)) [[1; 2]; [2; 0]]%Z → (0 <= cov <= 1)%Q).
Proof.
  apply (coverage_definition_bound [[1; 2]; [2; 0]]%Z [1; 0]%Z 4 2);
    [reflexivity | lia].
Defined.

(** *** Hit rate and reciprocal rank *)

Lemma count_true_cons b bs :
  count_true (b :: bs) = (if b then 1 else 0) + count_true bs.
Proof. unfold count_true. rewrite filter_cons. by destruct b. Qed.

Lemma count_true_eqb (t : Z) (l : list Z) :
  count_true ((λ x, (x =? t)%Z) <$> l) = length (filter (λ x, x = t) l).
Proof.
  induction l as [|x l IH]; [done|].
  rewrite fmap_cons, count_true_cons, filter_cons, IH.
  destruct (Z.eqb_spec x t); [by rewrite decide_True | by rewrite decide_False].
Qed.

Lemma count_tagged (f : nat → bool → nat * bool) (bs : list bool) :
  (∀ i b, (f i b).2 = b) →
  length (filter (λ ib, ib.2 = true) (imap f bs)) = count_true bs.
Proof.
  revert f. induction bs as [|b bs IH]; intros f Hf; [done|].
  rewrite count_true_cons. simpl. rewrite filter_cons, Hf.
  destruct b.
  - rewrite decide_True by done. simpl. f_equal. apply IH. intros i b. apply Hf.
  - rewrite decide_False by done. apply IH. intros i b. apply Hf.
Qed.

Lemma true_positions_length (bs : list bool) :
  length (true_positions bs) = count_true bs.
Proof. unfold true_positions. rewrite length_fmap. by apply count_tagged. Qed.

Lemma existsb_count_true (bs : list bool) :
  count_true bs ≤ 1 → count_true bs = if existsb id bs then 1 else 0.
Proof.
  induction bs as [|b bs IH]; [done|].
  rewrite count_true_cons. simpl. destruct b; simpl; [lia|].
  intros Hle. by apply IH.
Qed.

Lemma where_cols_length (mask : list (list bool)) :
  Forall (λ bs, count_true bs ≤ 1) mask →
  length (where_cols mask) = count_true (existsb id <$> mask).
Proof.
  unfold where_cols. induction 1 as [|bs mask Hbs _ IH]; [done|].
  rewrite !fmap_cons, count_true_cons. simpl.
  rewrite length_app, true_positions_length, IH, (existsb_count_true bs Hbs).
  by destruct (existsb id bs).
Qed.

Lemma hits_mask_single (topn : Z) (recs : list (list Z)) (holdout : list Z) :
  Forall2 (λ r t, hit_count topn r t ≤ 1) recs holdout →
  Forall (λ bs, count_true bs ≤ 1) (hits_mask_of recs holdout topn).
Proof.
  unfold hits_mask_of. induction 1 as [|r t recs holdout Hrt _ IH]; simpl.
  - constructor.
  - constructor; [|exact IH]. by rewrite count_true_eqb.
Qed.

Lemma hits_mask_length (topn : Z) (recs : list (list Z)) (holdout : list Z) :
  length recs = length holdout →
  length (hits_mask_of recs holdout topn) = length recs.
Proof. intros Heq. unfold hits_mask_of. rewrite length_zip_with. lia. Qed.

(** A sum of reciprocal ranks lies between zero and the number of hits. *)
Lemma reciprocal_rank_sum_bounds (cols : list nat) :
  (0 <= np_sum ((λ r, 1 / r) <$> ((λ c, inject_Z (Z.of_nat c) + 1) <$> cols))
   <= inject_Z (Z.of_nat (length cols)))%Q.
Proof.
  induction cols as [|c cols [IH0 IH1]].
  { split; apply Qle_refl. }
  assert (1 <= inject_Z (Z.of_nat c) + 1)%Q as Hrank.
  { assert (0 <= inject_Z (Z.of_nat c))%Q.
    { change 0%Q with (inject_Z 0). rewrite <- Zle_Qle. lia. }
    lra. }
  assert (0 <= 1 / (inject_Z (Z.of_nat c) + 1) <= 1)%Q as [Hlo Hhi].
  { split.
    - apply Qle_shift_div_l; lra.
    - apply Qle_shift_div_r; lra. }
  rewrite !fmap_cons. unfold np_sum in *. cbn [foldr length].
  rewrite Nat2Z.inj_succ. unfold Z.succ. rewrite inject_Z_plus.
  change (inject_Z 1) with 1%Q. clear Hrank.
  set (x := (1 / _)%Q) in *. set (s := foldr _ _ _) in *.
  set (n := inject_Z _) in *.
  split; lra.
Qed.

Lemma np_divide_pos (x y : Q) (n : nat) :
  n ≠ 0 → (0 <= x)%Q → (x <= y)%Q →
  ∃ p q, np_divide x n = Num p ∧ np_divide y n = Num q ∧ (0 <= p)%Q ∧ (p <= q)%Q.
Proof.
  intros Hn H0 Hxy. destruct n as [|n]; [done|].
  do 2 eexists. split; [done|]. split; [done|].
  assert (0 < inject_Z (Z.of_nat (S n)))%Q as Hpos.
  { change 0%Q with (inject_Z 0). rewrite <- Zlt_Qlt. lia. }
  split.
  - apply Qle_shift_div_l; [done|]. lra.
  - unfold Qdiv. apply Qmult_le_compat_r; [done|].
    apply Qinv_le_0_compat. lra.
Qed.

(** Without users both means are [nan], which compares with nothing. *)
Example evaluate_no_users : model_evaluate [] [] 4 2 = Ok (NaN, NaN, 0 # 4).
Proof. reflexivity. Qed.

(** C8 as stated fails: a row that lists the held-out item twice is
    counted twice and the reciprocal ranks add up past the hit rate. *)
Lemma mrr_exceeds_hr :
  ¬ (∀ recs holdout n_items topn hr mrr cov,
       length recs = length holdout → (1 ≤ topn)%Z →
       model_evaluate recs holdout n_items topn = Ok (Num hr, Num mrr, cov) →
       (0 <= mrr)%Q ∧ (mrr <= hr)%Q).
Proof.
  intros Hclaim.
  destruct (Hclaim [[1; 1]]%Z [1]%Z 4%Z 2%Z _ _ _ eq_refl ltac:(lia) eq_refl)
    as [_ Hle].
  vm_compute in Hle. by apply Hle.
Qed.

(** C8, as amended (MRR bound): for a recommendation matrix with at
    least one row in which no row lists its user's held-out item more
    than once among its first [topn] entries, the evaluator returns
    numbers [hr] and [mrr] with [0 ≤ mrr ≤ hr]. *)
Theorem mrr_bound (recs : list (list Z)) (holdout : list Z) (n_items topn : Z) :
  Forall2 (λ r t, hit_count topn r t ≤ 1) recs holdout →
  recs ≠ [] → n_items ≠ 0%Z →
  ∃ hr mrr cov,
    model_evaluate recs holdout n_items topn = Ok (Num hr, Num mrr, cov) ∧
    (0 <= mrr)%Q ∧ (mrr <= hr)%Q.
Proof.
  intros Hhits Hne Hn.
  pose proof (Forall2_length _ _ _ Hhits) as Heq.
  rewrite model_evaluate_returns by done.
  pose proof (hits_mask_single topn recs holdout Hhits) as Hsingle.
  pose proof (hits_mask_length topn recs holdout Heq) as Hlen.
  set (mask := hits_mask_of recs holdout topn) in *.
  pose proof (reciprocal_rank_sum_bounds (where_cols mask)) as [Hlo Hhi].
  rewrite (where_cols_length mask Hsingle) in Hhi.
  unfold np_mean. rewrite length_fmap, Hlen.
  destruct (np_divide_pos _ _ (length recs) ltac:(by destruct recs) Hlo Hhi)
    as (p & q & -> & -> & Hp & Hpq).
  do 3 eexists. split; [reflexivity|]. by split.
Qed.

Lemma mrr_bound_witness :
  ∃ hr mrr cov,
    model_evaluate [[1; 2]; [2; 0]]%Z [1; 0]%Z 4 2 = Ok (Num hr, Num mrr, cov) ∧
    (0 <= mrr)%Q ∧ (mrr <= hr)%Q.
Proof.
  apply (mrr_bound [[1; 2]; [2; 0]]%Z [1; 0]%Z 4 2).
  - repeat constructor.
  - discriminate.
  - lia.
Defined.

(** * Further properties *)

(** ** Suppression: what the result depends on, and what it keeps *)

Lemma downvote_in_bounds (scores : ndarray) (data : interactions) :
  ndarray_wf scores →
  Forall (in_bounds data.*1 (nrows scores) (ncols scores)) data →
  ∃ buf', downvote_seen_items scores data
          = (Ok (), mk_ndarray (nrows scores) (ncols scores) buf') ∧
    length buf' = length (flat scores) ∧
    ∀ k, buf' !! k
         = if decide (k < length (flat scores) ∧
                      Z.of_nat k ∈ seen_flat data.*1 (ncols scores) data)
           then Some NegInf else flat scores !! k.
Proof.
  intros Hwf Hb. unfold downvote_seen_items. rewrite ravel_in_bounds by done.
  assert (Forall (λ i, (0 ≤ i < Z.of_nat (length (flat scores)))%Z)
                 (seen_flat data.*1 (ncols scores) data)) as Hflat.
  { unfold seen_flat. apply Forall_fmap. eapply Forall_impl; [exact Hb|].
    intros [u i] [Hu Hi]. simpl in *. rewrite Hwf. nia. }
  destruct (put_in_range _ NegInf _ Hflat) as (buf' & -> & Hlen & Hlook).
  by exists buf'.
Qed.

Lemma downvote_out_of_bounds (scores : ndarray) (data : interactions) :
  ¬ Forall (in_bounds data.*1 (nrows scores) (ncols scores)) data →
  downvote_seen_items scores data = (Raise ValueError, scores).
Proof.
  intros Hn. unfold downvote_seen_items. by rewrite ravel_out_of_bounds.
Qed.

Lemma user_rank_same_users (us us' : list Z) (u : Z) :
  (∀ x, x ∈ us ↔ x ∈ us') → user_rank us u = user_rank us' u.
Proof.
  intros Hsame. unfold user_rank.
  assert (remove_dups us ≡ₚ remove_dups us') as ->; [|done].
  apply NoDup_Permutation; [apply NoDup_remove_dups..|].
  intros x. by rewrite !elem_of_remove_dups.
Qed.

Lemma user_rank_relabel (f : Z → Z) (us : list Z) (u : Z) :
  (∀ x y, (x < y)%Z → (f x < f y)%Z) →
  user_rank (f <$> us) (f u) = user_rank us u.
Proof.
  intros Hmono. unfold user_rank.
  assert (Inj eq eq f) as Hinj.
  { intros x y Hxy. destruct (Z.lt_total x y) as [Hlt|[Heq|Hlt]]; [|done|];
      apply Hmono in Hlt; lia. }
  assert (remove_dups (f <$> us) ≡ₚ f <$> remove_dups us) as ->.
  { apply NoDup_Permutation.
    - apply NoDup_remove_dups.
    - apply NoDup_fmap_2; [done | apply NoDup_remove_dups].
    - intros x. rewrite elem_of_remove_dups, !list_elem_of_fmap.
      by setoid_rewrite elem_of_remove_dups. }
  induction (remove_dups us) as [|x l IH]; [done|].
  rewrite fmap_cons, !filter_cons.
  destruct (decide (x < u)%Z) as [Hlt|Hge].
  - rewrite decide_True by (by apply Hmono). simpl. by rewrite IH.
  - rewrite decide_False; [done|]. intros Hlt.
    destruct (Z.lt_total x u) as [?|[->|Hgt]]; [done | lia |].
    apply Hmono in Hgt. lia.
Qed.

(** X1. Only the order of the user identifiers matters: relabelling
    them by any strictly increasing map gives the same outcome and the
    same matrix. *)
Theorem downvote_relabel (f : Z → Z) (scores : ndarray) (data : interactions) :
  (∀ x y, (x < y)%Z → (f x < f y)%Z) →
  downvote_seen_items scores ((λ ui, (f ui.1, ui.2)) <$> data)
  = downvote_seen_items scores data.
Proof.
  intros Hmono. unfold downvote_seen_items.
  assert (((λ ui : Z * Z, (f ui.1, ui.2)) <$> data).*2 = data.*2) as ->.
  { rewrite <- list_fmap_compose. by apply list_fmap_ext. }
  assert (((λ ui : Z * Z, (f ui.1, ui.2)) <$> data).*1 = f <$> data.*1) as ->.
  { rewrite <- !list_fmap_compose. by apply list_fmap_ext. }
  rewrite !factorize_sort_codes, <- list_fmap_compose.
  assert ((λ u, Z.of_nat (user_rank (f <$> data.*1) u)) ∘ f <$> data.*1
          = (λ u, Z.of_nat (user_rank data.*1 u)) <$> data.*1) as ->; [|done].
  apply list_fmap_ext. intros i u _. simpl. by rewrite user_rank_relabel.
Qed.

Lemma downvote_relabel_witness :
  downvote_seen_items example_scores
    ((λ ui, ((λ x, x + 100)%Z ui.1, ui.2)) <$> example_seen)
  = downvote_seen_items example_scores example_seen.
Proof. apply (downvote_relabel (λ x, x + 100)%Z). intros x y Hxy. lia. Defined.

(** X2. Suppressing the same table a second time changes nothing: the
    second call ends as the first did and leaves the matrix the first
    call produced. *)
Theorem downvote_idempotent (scores : ndarray) (data : interactions) :
  ndarray_wf scores →
  downvote_seen_items (downvote_seen_items scores data).2 data
  = downvote_seen_items scores data.
Proof.
  intros Hwf.
  destruct (decide (Forall (in_bounds data.*1 (nrows scores) (ncols scores)) data))
    as [Hb|Hb].
  - destruct (downvote_in_bounds scores data Hwf Hb) as (buf & Hr & Hlen & Hlook).
    rewrite Hr. simpl.
    destruct (downvote_in_bounds (mk_ndarray (nrows scores) (ncols scores) buf) data)
      as (buf' & Hr' & Hlen' & Hlook').
    { unfold ndarray_wf. simpl. by rewrite Hlen. }
    { done. }
    rewrite Hr'. simpl in *. do 2 f_equal.
    apply list_eq. intros k. rewrite Hlook', Hlook, Hlen.
    by repeat case_decide.
  - rewrite (downvote_out_of_bounds scores data Hb). simpl.
    by apply downvote_out_of_bounds.
Qed.

Lemma downvote_idempotent_witness :
  downvote_seen_items (downvote_seen_items example_scores example_seen).2 example_seen
  = downvote_seen_items example_scores example_seen.
Proof. apply (downvote_idempotent example_scores example_seen). reflexivity. Defined.

(** X3. The outcome depends only on which records the table holds, not
    on their order and not on repetitions. *)
Theorem downvote_same_records (scores : ndarray) (data data' : interactions) :
  ndarray_wf scores →
  (∀ ui, ui ∈ data ↔ ui ∈ data') →
  downvote_seen_items scores data = downvote_seen_items scores data'.
Proof.
  intros Hwf Hsame.
  assert (∀ u, user_rank data.*1 u = user_rank data'.*1 u) as Hrank.
  { intros u. apply user_rank_same_users. intros x.
    rewrite !list_elem_of_fmap. by setoid_rewrite Hsame. }
  assert (∀ ui, in_bounds data.*1 (nrows scores) (ncols scores) ui
                ↔ in_bounds data'.*1 (nrows scores) (ncols scores) ui) as Hin.
  { intros ui. unfold in_bounds. by rewrite Hrank. }
  assert (Forall (in_bounds data.*1 (nrows scores) (ncols scores)) data
          ↔ Forall (in_bounds data'.*1 (nrows scores) (ncols scores)) data') as Hall.
  { rewrite !Forall_forall. split; intros H ui Hui; apply Hin, H, Hsame, Hui. }
  destruct (decide (Forall (in_bounds data.*1 (nrows scores) (ncols scores)) data))
    as [Hb|Hb].
  - destruct (downvote_in_bounds scores data Hwf Hb) as (buf & -> & Hlen & Hlook).
    destruct (downvote_in_bounds scores data' Hwf (proj1 Hall Hb))
      as (buf' & -> & Hlen' & Hlook').
    do 2 f_equal. apply list_eq. intros k. rewrite Hlook, Hlook'.
    assert (Z.of_nat k ∈ seen_flat data.*1 (ncols scores) data
            ↔ Z.of_nat k ∈ seen_flat data'.*1 (ncols scores) data') as Hk.
    { unfold seen_flat. rewrite !list_elem_of_fmap.
      split; intros (ui & -> & Hui); exists ui;
        (split; [by rewrite Hrank | by apply Hsame]). }
    repeat case_decide; try done; exfalso; tauto.
  - rewrite (downvote_out_of_bounds scores data Hb).
    symmetry. apply downvote_out_of_bounds. tauto.
Qed.

Lemma downvote_same_records_witness :
  downvote_seen_items example_scores example_seen
  = downvote_seen_items example_scores [(7, 0); (10, 0); (10, 1); (7, 0)]%Z.
Proof.
  apply (downvote_same_records example_scores); [reflexivity|].
  intros ui. unfold example_seen. rewrite !elem_of_cons, !elem_of_nil. tauto.
Defined.

(** X4. Whether the call succeeds or raises, the matrix keeps its shape
    and every entry is either what it was or [-inf]. *)
Theorem downvote_only_lowers (scores : ndarray) (data : interactions) :
  ndarray_wf scores →
  let scores' := (downvote_seen_items scores data).2 in
  nrows scores' = nrows scores ∧ ncols scores' = ncols scores ∧
  ndarray_wf scores' ∧
  ∀ u i, entry scores' u i = entry scores u i ∨ entry scores' u i = Some NegInf.
Proof.
  intros Hwf.
  destruct (decide (Forall (in_bounds data.*1 (nrows scores) (ncols scores)) data))
    as [Hb|Hb].
  - destruct (downvote_in_bounds scores data Hwf Hb) as (buf & -> & Hlen & Hlook).
    simpl. split_and!; [done | done | unfold ndarray_wf; simpl; by rewrite Hlen |].
    intros u i. unfold entry. simpl. rewrite Hlook. case_decide; auto.
  - rewrite (downvote_out_of_bounds scores data Hb). simpl. auto.
Qed.

Lemma downvote_only_lowers_witness :
  let scores' := (downvote_seen_items example_scores example_seen).2 in
  nrows scores' = 2 ∧ ncols scores' = 2 ∧
  ndarray_wf scores' ∧
  ∀ u i, entry scores' u i = entry example_scores u i
         ∨ entry scores' u i = Some NegInf.
Proof. apply (downvote_only_lowers example_scores example_seen). reflexivity. Defined.

(** ** A second pair of kernels

    Both operations by a full insertion sort: a sorted array is
    partitioned at every position. *)

Lemma scalar_argsort_low_high (a : list score) (i j : nat) :
  i < j → j < length a →
  score_le (a !!! (scalar_argsort a !!! i)) (a !!! (scalar_argsort a !!! j)).
Proof.
  intros Hij Hj.
  pose proof (scalar_argsort_sorted a) as Hs.
  apply (Sorted_StronglySorted _ _) in Hs.
  assert (length (scalar_argsort a) = length a) as Hlen
    by (by rewrite scalar_argsort_perm, length_seq).
  eapply (StronglySorted_lookup _ _ i j); [exact Hs | done | |];
    rewrite list_lookup_fmap, list_lookup_lookup_total_lt by lia; done.
Qed.

Program Definition sorting_kernels : NumpySort := {|
  argpartition := λ a _, scalar_argsort a;
  argsort := scalar_argsort
|}.
Next Obligation. intros. apply scalar_argsort_perm. Qed.
Next Obligation. intros a k i Hk Hi. by apply scalar_argsort_low_high. Qed.
Next Obligation. intros a k i Hk Hi. by apply scalar_argsort_low_high. Qed.
Next Obligation. intros. apply scalar_argsort_perm. Qed.
Next Obligation. intros. apply scalar_argsort_sorted. Qed.

(** On the row with a tie the two pairs of kernels disagree. *)
Example topidx_tie_sorting :
  @topidx sorting_kernels [Fin 5; Fin 1; Fin 5; Fin 0] 2 = Ok [0; 2].
Proof. reflexivity. Qed.

(** ** The selector: outcomes, negative [n], ties *)

Section selector_outcomes.
Context `{NS : NumpySort}.

Lemma topidx_nil (n : Z) : topidx [] n = Ok [].
Proof.
  unfold topidx, np_argpartition. simpl. unfold slice_from.
  rewrite drop_nil. simpl.
  pose proof (argsort_perm []) as Hp. simpl in Hp.
  apply Permutation_nil_r in Hp. by rewrite Hp.
Qed.

Lemma topidx_error (a : list score) (n : Z) (e : exn) :
  topidx a n = Raise e → e = ValueError.
Proof.
  intros Hr. destruct a as [|x a]; [by rewrite topidx_nil in Hr|].
  destruct (decide (- Z.of_nat (length (x :: a)) < n ≤ Z.of_nat (length (x :: a)))%Z)
    as [Hn|Hn].
  - by rewrite topidx_selected in Hr.
  - rewrite topidx_raises in Hr; [congruence | done | lia].
Qed.

(** X5. [topn_recommendations] returns exactly when the matrix has a
    row and either no column or [-I < n ≤ I]; otherwise it raises
    [ValueError], and it never raises anything else. *)
Theorem topn_recommendations_outcome (scores : ndarray) (n : Z) :
  ndarray_wf scores →
  (nrows scores ≠ 0 →
   ncols scores = 0 ∨ (- Z.of_nat (ncols scores) < n ≤ Z.of_nat (ncols scores))%Z →
   ∃ recs, topn_recommendations scores n = Ok recs ∧
           length recs = nrows scores) ∧
  (nrows scores = 0 ∨
   (ncols scores ≠ 0 ∧
    (n ≤ - Z.of_nat (ncols scores) ∨ Z.of_nat (ncols scores) < n)%Z) →
   topn_recommendations scores n = Raise ValueError) ∧
  (∀ e, topn_recommendations scores n = Raise e → e = ValueError).
Proof.
  intros Hwf. split_and!.
  - intros Hu [HI|Hn].
    + exists ((λ _, []) <$> rows scores). split.
      * unfold topn_recommendations, apply_along_axis_1.
        rewrite decide_False by done. apply mapM_Ok, Forall_forall.
        intros a Ha. apply list_elem_of_lookup in Ha as [u Hr].
        apply rows_lookup in Hr as [Hlt ->].
        pose proof (row_length scores u Hwf Hlt) as Hlen. rewrite HI in Hlen.
        apply nil_length_inv in Hlen. rewrite Hlen. apply topidx_nil.
      * unfold rows. by rewrite !length_fmap, length_seq.
    + eexists. split; [by apply topn_recommendations_rows|].
      unfold rows. by rewrite !length_fmap, length_seq.
  - intros [Hu|[HI Hn]]; unfold topn_recommendations, apply_along_axis_1.
    { by rewrite decide_True. }
    destruct (decide (nrows scores = 0)) as [|Hu]; [done|].
    apply (mapM_Raise _ _ _ (row scores 0)).
    + unfold rows. apply list_elem_of_fmap. exists 0. split; [done|].
      apply elem_of_seq. lia.
    + apply topidx_raises.
      * intros Hnil. pose proof (row_length scores 0 Hwf ltac:(lia)) as Hlen.
        rewrite Hnil in Hlen. simpl in Hlen. lia.
      * rewrite row_length by (done || lia). done.
    + intros a e'. apply topidx_error.
  - intros e. unfold topn_recommendations, apply_along_axis_1.
    case_decide; [congruence|].
    generalize (rows scores). intros l. induction l as [|a l IH]; simpl; [done|].
    destruct (topidx a n) as [r|e'] eqn:Ha; simpl.
    + destruct (mapM (λ a0, topidx a0 n) l); simpl; [done|].
      intros [= <-]. by apply IH.
    + intros [= <-]. by eapply topidx_error.
Qed.

(** X6. A negative [n = -k] with [0 < k < I] is not an error: the
    selector then returns [I - k] positions, the first [I - k] of a
    full descending sort of the row. *)
Theorem topidx_negative_n (a : list score) (k : nat) :
  0 < k → k < length a →
  ∃ r full, topidx a (- Z.of_nat k) = Ok r ∧
    length r = length a - k ∧
    full_descending_sort a full ∧ r = take (length a - k) full.
Proof.
  intros Hk Hlt.
  assert (cut a (- Z.of_nat k) = k) as Hcut by (unfold cut; case_match; lia).
  destruct (selected_prefix_of_full_sort a k Hlt) as (full & Hfull & Htake).
  exists (selected a k), full. split_and!; [|by apply selected_length|done|done].
  rewrite topidx_selected by lia. by rewrite Hcut.
Qed.

Lemma length_filter_fmap {A B} (f : A → B) (P : B → Prop)
    `{∀ y, Decision (P y)} (l : list A) :
  length (filter P (f <$> l)) = length (filter (λ x, P (f x)) l).
Proof.
  induction l as [|x l IH]; [done|].
  rewrite fmap_cons, !filter_cons. case_decide; simpl; by rewrite IH.
Qed.

Lemma score_le_neg_inf (x : score) : score_le x NegInf → is_neg_inf x = true.
Proof. by destruct x. Qed.

(** While a row has at least as many candidates as positions are
    selected, no [-inf] entry is selected. *)
Lemma selected_above (a : list score) (k : nat) (i : nat) :
  k < length a → length a - k ≤ candidates a →
  i ∈ selected a k → is_neg_inf (a !!! i) = false.
Proof.
  intros Hk Hcand Hi.
  destruct (is_neg_inf (a !!! i)) eqn:Hbad; [exfalso|done].
  set (good := filter (λ j, is_neg_inf (a !!! j) = false) (seq 0 (length a))).
  assert (length good = candidates a) as Hgood.
  { unfold good, candidates.
    trans (length (filter (λ x, is_neg_inf x = false)
                          ((λ j, a !!! j) <$> seq 0 (length a)))).
    - by rewrite length_filter_fmap.
    - by rewrite lookup_total_seq. }
  assert (i :: good ⊆+ selected a k) as Hsub.
  { apply NoDup_submseteq.
    - apply NoDup_cons. split.
      + unfold good. rewrite list_elem_of_filter. intros [Hg _]. congruence.
      + apply NoDup_filter, NoDup_seq.
    - intros j Hj. apply elem_of_cons in Hj as [->|Hj]; [done|].
      unfold good in Hj. apply list_elem_of_filter in Hj as [Hg Hj].
      apply elem_of_seq in Hj.
      destruct (decide (j ∈ selected a k)) as [|Hnj]; [done|exfalso].
      pose proof (selected_top a k i j Hk Hi ltac:(lia) Hnj) as Hle.
      destruct (a !!! i); try done.
      apply score_le_neg_inf in Hle. congruence. }
  apply submseteq_length in Hsub. rewrite selected_length in Hsub by done.
  simpl in Hsub. lia.
Qed.

Lemma row_lookup (m : ndarray) (u i : nat) :
  i < ncols m → row m u !! i = entry m u i.
Proof.
  intros Hi. unfold row, entry.
  by rewrite lookup_take_lt, lookup_drop.
Qed.

(** X7. Suppress, then select: when the table fits the matrix and
    [1 ≤ n ≤ I], both calls return, and no seen item is recommended to
    a user whose row still has at least [n] candidates above [-inf]. *)
Theorem seen_items_not_recommended (scores : ndarray) (data : interactions)
    (n : Z) :
  ndarray_wf scores → nrows scores ≠ 0 →
  Forall (in_bounds data.*1 (nrows scores) (ncols scores)) data →
  (1 ≤ n ≤ Z.of_nat (ncols scores))%Z →
  ∃ scores' recs,
    downvote_seen_items scores data = (Ok (), scores') ∧
    topn_recommendations scores' n = Ok recs ∧
    ∀ u i r, (u, i) ∈ data →
      recs !! user_rank data.*1 u = Some r →
      Z.to_nat n ≤ candidates (row scores' (user_rank data.*1 u)) →
      Z.to_nat i ∉ r.
Proof.
  intros Hwf Hu Hb Hn.
  destruct (downvote_in_bounds scores data Hwf Hb) as (buf & Hr & Hlen & Hlook).
  set (scores' := mk_ndarray (nrows scores) (ncols scores) buf) in *.
  assert (ndarray_wf scores') as Hwf' by (unfold ndarray_wf; simpl; by rewrite Hlen).
  exists scores'. eexists. split; [done|].
  split; [apply topn_recommendations_rows; [done | done | simpl; lia]|].
  intros u i r Hin Hrow Hcand Hmem.
  rewrite list_lookup_fmap in Hrow.
  destruct (rows scores' !! user_rank data.*1 u) as [a|] eqn:Ha; [|done].
  apply rows_lookup in Ha as [Hlt ->]. simpl in Hrow. injection Hrow as <-.
  set (a := row scores' (user_rank data.*1 u)) in *.
  pose proof (row_length scores' _ Hwf' Hlt) as Hlena. fold a in Hlena.
  simpl in Hlena.
  assert (cut a n = length a - Z.to_nat n ∧ cut a n < length a) as [Hcut Hk].
  { unfold cut. case_match; lia. }
  eapply Forall_forall in Hb as [Hru Hi]; [|exact Hin]. simpl in Hru, Hi.
  assert (a !! Z.to_nat i = Some NegInf) as Hseen.
  { unfold a. rewrite row_lookup by (simpl; lia). unfold entry. simpl.
    rewrite Hlook, decide_True; [done|]. split; [rewrite Hwf; nia|].
    unfold seen_flat. apply list_elem_of_fmap. exists (u, i).
    split; [simpl; lia | done]. }
  pose proof (selected_above a (cut a n) (Z.to_nat i) Hk ltac:(lia) Hmem) as Hgood.
  by rewrite (list_lookup_total_correct _ _ _ Hseen) in Hgood.
Qed.

End selector_outcomes.

Lemma topn_recommendations_outcome_witness :
  (nrows scenario_scores ≠ 0 →
   ncols scenario_scores = 0 ∨ (- 4 < 2 ≤ 4)%Z →
   ∃ recs, topn_recommendations scenario_scores 2 = Ok recs ∧ length recs = 2) ∧
  (nrows scenario_scores = 0 ∨
   (ncols scenario_scores ≠ 0 ∧ (2 ≤ - 4 ∨ 4 < 2)%Z) →
   topn_recommendations scenario_scores 2 = Raise ValueError) ∧
  (∀ e, topn_recommendations scenario_scores 2 = Raise e → e = ValueError).
Proof. apply (topn_recommendations_outcome scenario_scores 2). reflexivity. Defined.

Lemma topidx_negative_n_witness :
  ∃ r full, topidx scenario_row0 (- 1) = Ok r ∧
    length r = 3 ∧
    full_descending_sort scenario_row0 full ∧ r = take 3 full.
Proof. apply (topidx_negative_n scenario_row0 1); simpl; lia. Defined.

Lemma seen_items_not_recommended_witness :
  ∃ scores' recs,
    downvote_seen_items example_scores example_seen = (Ok (), scores') ∧
    topn_recommendations scores' 1 = Ok recs ∧
    ∀ u i r, (u, i) ∈ example_seen →
      recs !! user_rank example_seen.*1 u = Some r →
      1 ≤ candidates (row scores' (user_rank example_seen.*1 u)) →
      Z.to_nat i ∉ r.
Proof.
  apply (seen_items_not_recommended example_scores example_seen 1).
  - reflexivity.
  - done.
  - apply (bool_decide_unpack _). vm_compute. exact I.
  - simpl. lia.
Defined.

(** ** Rows without ties *)

Lemma top_spec_incl (a : list score) (m : nat) (r1 r2 : list nat) :
  tie_free a → top_spec a m r1 → top_spec a m r2 → ∀ i, i ∈ r1 → i ∈ r2.
Proof.
  intros Htie (Hlen1 & Hnd1 & Hr1 & _ & Hd1) (Hlen2 & Hnd2 & Hr2 & _ & Hd2) i Hi.
  destruct (decide (i ∈ r2)) as [|Hni]; [done|exfalso].
  assert (∃ j, j ∈ r2 ∧ j ∉ r1) as (j & Hj & Hnj).
  { destruct (decide (Forall (λ j, j ∈ r1) r2)) as [Hall|Hnall].
    - exfalso. apply Hni.
      assert (r2 ≡ₚ r1) as ->; [|done].
      apply submseteq_length_Permutation; [|lia].
      apply NoDup_submseteq; [done|]. by apply Forall_forall.
    - apply not_Forall_Exists in Hnall; [|apply _].
      apply Exists_exists in Hnall as (j & Hj & Hnj). by exists j. }
  assert (i < length a) as Hia by (by eapply Forall_forall in Hr1).
  assert (j < length a) as Hja by (by eapply Forall_forall in Hr2).
  eapply Forall_forall in Hd1; [|exact Hi].
  eapply Forall_forall in Hd1; [|apply elem_of_seq; split; [lia | exact Hja]].
  eapply Forall_forall in Hd2; [|exact Hj].
  eapply Forall_forall in Hd2; [|apply elem_of_seq; split; [lia | exact Hia]].
  destruct Hd1 as [|Hji]; [done|]. destruct Hd2 as [|Hij]; [done|].
  assert (i = j) as -> by (by apply Htie). done.
Qed.

Lemma top_spec_unique (a : list score) (m : nat) (r1 r2 : list nat) :
  tie_free a → top_spec a m r1 → top_spec a m r2 → r1 = r2.
Proof.
  intros Htie H1 H2.
  pose proof H1 as (_ & Hnd1 & Hr1 & Hs1 & _).
  pose proof H2 as (_ & Hnd2 & Hr2 & Hs2 & _).
  apply (StronglySorted_unique_strong (λ i j, score_ge (a !!! i) (a !!! j))).
  - intros i j Hi Hj Hij Hji. apply Htie; [| |exact Hji|exact Hij].
    + by eapply Forall_forall in Hr1.
    + by eapply Forall_forall in Hr2.
  - by eapply StronglySorted_fmap_inv; [|exact Hs1].
  - by eapply StronglySorted_fmap_inv; [|exact Hs2].
  - apply NoDup_Permutation; [done | done |].
    intros i. split; by eapply top_spec_incl.
Qed.

(** X8. On a row without ties the result of [topidx] does not depend on
    the kernels: any two implementations of the numpy contract give the
    same outcome, for every [n]. *)
Theorem topidx_kernel_independent (NS1 NS2 : NumpySort) (a : list score) (n : Z) :
  tie_free a → @topidx NS1 a n = @topidx NS2 a n.
Proof.
  intros Htie. destruct a as [|x a]; [by rewrite !topidx_nil|].
  destruct (decide (- Z.of_nat (length (x :: a)) < n ≤ Z.of_nat (length (x :: a)))%Z)
    as [Hn|Hn].
  - rewrite !topidx_selected by done. f_equal.
    assert (cut (x :: a) n < length (x :: a)) as Hk by (unfold cut; case_match; lia).
    eapply top_spec_unique; [exact Htie | |]; by apply selected_top_spec.
  - rewrite !topidx_raises; [done | done | lia | done | lia].
Qed.

Lemma scenario_row0_tie_free : tie_free scenario_row0.
Proof.
  intros i j Hi Hj Hij Hji. simpl in Hi, Hj.
  cases_below i Hi; cases_below j Hj;
    first [reflexivity | discriminate Hij | discriminate Hji].
Qed.

Lemma topidx_kernel_independent_witness :
  @topidx scalar_kernels scenario_row0 2 = @topidx sorting_kernels scenario_row0 2.
Proof.
  apply (topidx_kernel_independent scalar_kernels sorting_kernels scenario_row0 2).
  exact scenario_row0_tie_free.
Defined.

(** ** The evaluator: outcomes and hit rate *)

(** X9. The evaluator raises only [AssertionError] (row counts differ)
    or [ZeroDivisionError] (row counts agree, [n_items = 0]); when it
    returns, [hr] and [mrr] are [nan] exactly when there is no user and
    numbers otherwise, never [inf]. *)
Theorem evaluator_outcome (recs : list (list Z)) (holdout : list Z)
    (n_items topn : Z) :
  match model_evaluate recs holdout n_items topn with
  | Raise e =>
      (e = AssertionError ∧ length recs ≠ length holdout) ∨
      (e = ZeroDivisionError ∧ length recs = length holdout ∧ n_items = 0%Z)
  | Ok (hr, mrr, cov) =>
      length recs = length holdout ∧ n_items ≠ 0%Z ∧
      (recs = [] → hr = NaN ∧ mrr = NaN) ∧
      (recs ≠ [] → ∃ h m, hr = Num h ∧ mrr = Num m)
  end.
Proof.
  destruct (decide (length recs = length holdout)) as [Heq|Hne].
  - destruct (decide (n_items = 0%Z)) as [->|Hn].
    + rewrite model_evaluate_zero by done. right. done.
    + rewrite model_evaluate_returns by done. split_and!; [done | done | |].
      * intros ->. destruct holdout; [|done]. done.
      * intros Hrecs. unfold np_mean.
        rewrite length_fmap, hits_mask_length by done.
        destruct (length recs) as [|u] eqn:Hu; [by destruct recs|].
        by do 2 eexists.
  - rewrite model_evaluate_mismatch by done. left. done.
Qed.

Lemma count_true_le (bs : list bool) : count_true bs ≤ length bs.
Proof. unfold count_true. apply length_filter. Qed.

Lemma count_true_all (bs : list bool) :
  count_true bs = length bs ↔ Forall (λ b, b = true) bs.
Proof.
  induction bs as [|b bs IH]; [by split; [constructor|]|].
  rewrite count_true_cons, Forall_cons. simpl.
  pose proof (count_true_le bs). destruct b; [|split; [lia | intros [? _]; done]].
  rewrite <- IH. split; [intros ?; split; [done | lia] | intros [_ ?]; lia].
Qed.

Lemma existsb_hit (t : Z) (l : list Z) :
  existsb id ((λ x, (x =? t)%Z) <$> l) = true ↔ t ∈ l.
Proof.
  induction l as [|x l IH]; simpl; [by rewrite elem_of_nil|].
  rewrite elem_of_cons, orb_true_iff, IH. unfold id.
  rewrite Z.eqb_eq. split; intros [?|?]; auto.
Qed.

Lemma hits_all (topn : Z) (recs : list (list Z)) (holdout : list Z) :
  length recs = length holdout →
  Forall (λ b, b = true) (existsb id <$> hits_mask_of recs holdout topn)
  ↔ Forall2 (λ r t, t ∈ slice_to topn r) recs holdout.
Proof.
  unfold hits_mask_of. revert holdout.
  induction recs as [|r recs IH]; intros [|t holdout] Heq; try done.
  simpl. rewrite Forall_cons, Forall2_cons, existsb_hit.
  rewrite <- (IH holdout) by (simpl in Heq; lia). done.
Qed.

Lemma inject_nat_inj (a b : nat) :
  (inject_Z (Z.of_nat a) == inject_Z (Z.of_nat b))%Q → a = b.
Proof. intros H. apply (proj1 (inject_Z_injective _ _)) in H. lia. Qed.

(** X10. With at least one user, the hit rate is a number in [[0, 1]],
    and it is 1 exactly when every user's held-out item is among the
    first [topn] entries of the user's row. *)
Theorem hit_rate_bound (recs : list (list Z)) (holdout : list Z)
    (n_items topn : Z) :
  length recs = length holdout → recs ≠ [] → n_items ≠ 0%Z →
  ∃ hr mrr cov,
    model_evaluate recs holdout n_items topn = Ok (Num hr, mrr, cov) ∧
    (0 <= hr <= 1)%Q ∧
    ((hr == 1)%Q ↔ Forall2 (λ r t, t ∈ slice_to topn r) recs holdout).
Proof.
  intros Heq Hne Hn. rewrite model_evaluate_returns by done.
  pose proof (hits_all topn recs holdout Heq) as Hall.
  rewrite <- count_true_all in Hall.
  set (hits := existsb id <$> hits_mask_of recs holdout topn) in *.
  assert (length hits = length recs) as Hlen.
  { unfold hits. by rewrite length_fmap, hits_mask_length. }
  pose proof (count_true_le hits) as Hle.
  unfold np_mean. rewrite Hlen in *.
  set (c := count_true hits) in *.
  destruct (length recs) as [|u] eqn:Hu; [by destruct recs|].
  do 3 eexists. split; [reflexivity|].
  assert (0 < inject_Z (Z.of_nat (S u)))%Q as Hpos.
  { change 0%Q with (inject_Z 0). rewrite <- Zlt_Qlt. lia. }
  split; [split|rewrite <- Hall; split].
  - apply Qle_shift_div_l; [done|]. rewrite Qmult_0_l.
    change 0%Q with (inject_Z 0). rewrite <- Zle_Qle. lia.
  - apply Qle_shift_div_r; [done|]. rewrite Qmult_1_l.
    rewrite <- Zle_Qle. lia.
  - intros H1. apply inject_nat_inj.
    rewrite <- (Qmult_1_l (inject_Z (Z.of_nat (S u)))), <- H1.
    field. lra.
  - intros ->. field. lra.
Qed.

Lemma hit_rate_bound_witness :
  ∃ hr mrr cov,
    model_evaluate [[1; 2]; [2; 0]]%Z [1; 0]%Z 4 2 = Ok (Num hr, mrr, cov) ∧
    (0 <= hr <= 1)%Q ∧
    ((hr == 1)%Q ↔ Forall2 (λ r t, t ∈ slice_to 2 r) [[1; 2]; [2; 0]]%Z [1; 0]%Z).
Proof.
  apply (hit_rate_bound [[1; 2]; [2; 0]]%Z [1; 0]%Z 4 2);
    [reflexivity | discriminate | lia].
Defined.

Lemma hits_mask_prefix (topn : Z) (recs recs' : list (list Z)) (holdout : list Z) :
  slice_to topn <$> recs = slice_to topn <$> recs' →
  hits_mask_of recs holdout topn = hits_mask_of recs' holdout topn.
Proof.
  unfold hits_mask_of. revert recs' holdout.
  induction recs as [|r recs IH]; intros [|r' recs'] holdout Hpre; try done.
  destruct holdout as [|t holdout]; [done|].
  simpl in *. injection Hpre as Hr Hpre. rewrite Hr. f_equal. by apply IH.
Qed.

(** X11. Hit rate and reciprocal rank read only the first [topn]
    columns: two recommendation matrices that agree there get the same
    [hr] and [mrr] (coverage may differ, it reads all columns). *)
Theorem evaluator_reads_prefix (recs recs' : list (list Z)) (holdout : list Z)
    (n_items topn : Z) :
  length recs = length holdout → n_items ≠ 0%Z →
  slice_to topn <$> recs = slice_to topn <$> recs' →
  ∃ hr mrr cov cov',
    model_evaluate recs holdout n_items topn = Ok (hr, mrr, cov) ∧
    model_evaluate recs' holdout n_items topn = Ok (hr, mrr, cov').
Proof.
  intros Heq Hn Hpre.
  assert (length recs' = length recs) as Hlen.
  { apply (f_equal length) in Hpre. by rewrite !length_fmap in Hpre. }
  rewrite !model_evaluate_returns by (done || lia).
  rewrite (hits_mask_prefix topn recs recs' holdout Hpre), Hlen.
  by do 4 eexists.
Qed.

Lemma evaluator_reads_prefix_witness :
  ∃ hr mrr cov cov',
    model_evaluate [[1; 2; 3]; [2; 0; 1]]%Z [1; 0]%Z 4 2 = Ok (hr, mrr, cov) ∧
    model_evaluate [[1; 2]; [2; 0]]%Z [1; 0]%Z 4 2 = Ok (hr, mrr, cov').
Proof.
  apply (evaluator_reads_prefix [[1; 2; 3]; [2; 0; 1]]%Z [[1; 2]; [2; 0]]%Z);
    [reflexivity | lia | reflexivity].
Defined.

(** ** Coverage *)

Lemma coverage_unit (d : nat) (n : Z) :
  d ≤ Z.to_nat n → n ≠ 0%Z →
  (0 <= inject_Z (Z.of_nat d) / inject_Z n <= 1)%Q.
Proof.
  intros Hd Hn. destruct (decide (0 < n)%Z) as [Hpos|Hneg].
  - assert (0 < inject_Z n)%Q as Hq.
    { change 0%Q with (inject_Z 0). rewrite <- Zlt_Qlt. lia. }
    split.
    + apply Qle_shift_div_l; [done|]. rewrite Qmult_0_l.
      change 0%Q with (inject_Z 0). rewrite <- Zle_Qle. lia.
    + apply Qle_shift_div_r; [done|]. rewrite Qmult_1_l.
      rewrite <- Zle_Qle. lia.
  - assert (d = 0) as -> by lia. simpl.
    assert (0 / inject_Z n == 0)%Q as -> by (unfold Qdiv; apply Qmult_0_l).
    split; [apply Qle_refl | done].
Qed.

(** X12. Recommending every item of the catalog, and nothing outside
    it, gives coverage 1. *)
Theorem coverage_full_catalog (recs : list (list Z)) (holdout : list Z)
    (n_items topn : Z) :
  length recs = length holdout → (0 < n_items)%Z →
  (∀ x, x ∈ concat recs ↔ (0 ≤ x < n_items)%Z) →
  ∃ hr mrr cov,
    model_evaluate recs holdout n_items topn = Ok (hr, mrr, cov) ∧ (cov == 1)%Q.
Proof.
  intros Heq Hn Hall. rewrite model_evaluate_returns by (done || lia).
  do 3 eexists. split; [reflexivity|].
  assert (np_unique (concat recs) ≡ₚ seqZ 0 n_items) as ->.
  { apply NoDup_Permutation; [apply np_unique_NoDup | apply NoDup_seqZ |].
    intros x. rewrite np_unique_elem_of, Hall, elem_of_seqZ. lia. }
  rewrite length_seqZ, Z2Nat.id by lia. field.
  intros H0. change 0%Q with (inject_Z 0) in H0.
  apply (proj1 (inject_Z_injective _ _)) in H0. lia.
Qed.

Lemma coverage_full_catalog_witness :
  ∃ hr mrr cov,
    model_evaluate [[1; 2]; [2; 0]]%Z [1; 0]%Z 3 2 = Ok (hr, mrr, cov) ∧ (cov == 1)%Q.
Proof.
  apply (coverage_full_catalog [[1; 2]; [2; 0]]%Z [1; 0]%Z 3 2);
    [reflexivity | lia |].
  intros x. simpl. rewrite !elem_of_cons, elem_of_nil. lia.
Defined.

(** X13. For a positive catalog size, coverage depends only on the set
    of recommended items and grows with it: if every item recommended
    in one matrix is recommended in another, the first coverage is at
    most the second. *)
Theorem coverage_monotone (recs recs' : list (list Z)) (holdout holdout' : list Z)
    (n_items topn topn' : Z) :
  length recs = length holdout → length recs' = length holdout' →
  (0 < n_items)%Z →
  (∀ x, x ∈ concat recs → x ∈ concat recs') →
  ∃ hr mrr cov hr' mrr' cov',
    model_evaluate recs holdout n_items topn = Ok (hr, mrr, cov) ∧
    model_evaluate recs' holdout' n_items topn' = Ok (hr', mrr', cov') ∧
    (cov <= cov')%Q.
Proof.
  intros Heq Heq' Hn Hsub. rewrite !model_evaluate_returns by (done || lia).
  do 6 eexists. split; [reflexivity|]. split; [reflexivity|].
  assert (length (np_unique (concat recs)) ≤ length (np_unique (concat recs'))) as Hle.
  { apply submseteq_length, NoDup_submseteq; [apply np_unique_NoDup|].
    intros x. rewrite !np_unique_elem_of. apply Hsub. }
  unfold Qdiv. apply Qmult_le_compat_r.
  - rewrite <- Zle_Qle. lia.
  - apply Qinv_le_0_compat. change 0%Q with (inject_Z 0). rewrite <- Zle_Qle. lia.
Qed.

Lemma coverage_monotone_witness :
  ∃ hr mrr cov hr' mrr' cov',
    model_evaluate [[1; 2]]%Z [1]%Z 4 2 = Ok (hr, mrr, cov) ∧
    model_evaluate [[1; 2]; [2; 0]]%Z [1; 0]%Z 4 1 = Ok (hr', mrr', cov') ∧
    (cov <= cov')%Q.
Proof.
  apply (coverage_monotone [[1; 2]]%Z [[1; 2]; [2; 0]]%Z [1]%Z [1; 0]%Z 4 2 1);
    [reflexivity | reflexivity | lia |].
  intros x. simpl. rewrite !elem_of_cons, elem_of_nil. tauto.
Defined.

(** ** The whole pipeline *)

Lemma filter_eq_NoDup (t : Z) (l : list Z) :
  NoDup l → length (filter (λ x, x = t) l) ≤ 1.
Proof.
  induction 1 as [|x l Hx _ IH]; [simpl; lia|].
  rewrite filter_cons. case_decide as Hxt; [|done].
  subst x. rewrite (filter_none _ l); [simpl; lia|].
  apply Forall_forall. intros y Hy ->. done.
Qed.

Lemma hit_count_NoDup (topn : Z) (r : list Z) (t : Z) :
  NoDup r → hit_count topn r t ≤ 1.
Proof.
  intros Hnd. unfold hit_count. apply filter_eq_NoDup.
  unfold slice_to. eapply sublist_NoDup; [exact Hnd | apply sublist_take].
Qed.

Lemma Forall2_of_Forall {A B} (P : A → B → Prop) (l : list A) (k : list B) :
  Forall (λ x, ∀ y, P x y) l → length l = length k → Forall2 P l k.
Proof.
  intros Hl. revert k. induction Hl as [|x l Hx _ IH]; intros [|y k] Hlen; try done.
  constructor; [apply Hx | apply IH; simpl in Hlen; lia].
Qed.

Section pipeline.
Context `{NS : NumpySort}.

(** X15. Select, then evaluate: for a matrix with at least one row,
    [1 ≤ n ≤ I], one holdout record a row and a catalog of at least [I]
    items, both calls return and the metrics satisfy
    [0 ≤ mrr ≤ hr ≤ 1] and [0 ≤ coverage ≤ 1]; a selected row never
    repeats an item, so no hit is counted twice. *)
Theorem pipeline_metrics (scores : ndarray) (n : Z) (holdout : list Z)
    (n_items topn : Z) :
  ndarray_wf scores → nrows scores ≠ 0 →
  (1 ≤ n ≤ Z.of_nat (ncols scores))%Z →
  length holdout = nrows scores →
  (Z.of_nat (ncols scores) ≤ n_items)%Z →
  ∃ recs hr mrr cov,
    topn_recommendations scores n = Ok recs ∧ Forall NoDup recs ∧
    model_evaluate (index_array recs) holdout n_items topn
      = Ok (Num hr, Num mrr, cov) ∧
    (0 <= mrr)%Q ∧ (mrr <= hr)%Q ∧ (hr <= 1)%Q ∧ (0 <= cov <= 1)%Q.
Proof.
  intros Hwf Hu Hn Hhold Hcat.
  exists ((λ a, selected a (cut a n)) <$> rows scores).
  set (recs := (λ a, selected a (cut a n)) <$> rows scores).
  assert (Forall (λ r, NoDup r ∧ Forall (λ i, i < ncols scores) r) recs) as Hrecs.
  { unfold recs. apply Forall_fmap, Forall_forall. intros a Ha.
    apply list_elem_of_lookup in Ha as [u Hr].
    apply rows_lookup in Hr as [Hlt ->].
    pose proof (row_length scores u Hwf Hlt) as Hlen.
    assert (cut (row scores u) n < length (row scores u)) as Hk
      by (unfold cut; case_match; lia).
    simpl. split; [by apply selected_NoDup|].
    rewrite <- Hlen. by apply selected_in_range. }
  assert (length (index_array recs) = length holdout) as Hlen.
  { unfold index_array, recs, rows. by rewrite !length_fmap, length_seq. }
  assert (index_array recs ≠ []) as Hne.
  { intros Hnil. rewrite Hnil in Hlen. simpl in Hlen. lia. }
  assert (Forall2 (λ r t, hit_count topn r t ≤ 1) (index_array recs) holdout) as Hhits.
  { apply Forall2_of_Forall; [|done]. unfold index_array.
    apply Forall_fmap. eapply Forall_impl; [exact Hrecs|].
    intros r [Hnd _] t. simpl. apply hit_count_NoDup.
    apply NoDup_fmap_2; [apply Nat2Z.inj' | done]. }
  assert (Forall (λ x, (0 ≤ x < n_items)%Z) (concat (index_array recs))) as Hrange.
  { apply Forall_concat. unfold index_array. apply Forall_fmap.
    eapply Forall_impl; [exact Hrecs|]. intros r [_ Hr]. simpl.
    apply Forall_fmap. eapply Forall_impl; [exact Hr|]. intros i Hi. simpl in *. lia. }
  assert (∃ hr mrr cov,
            model_evaluate (index_array recs) holdout n_items topn
              = Ok (Num hr, Num mrr, cov) ∧
            (0 <= mrr)%Q ∧ (mrr <= hr)%Q ∧ (hr <= 1)%Q ∧ (0 <= cov <= 1)%Q)
    as (hr & mrr & cov & Hev & Hbounds);
    [|exists hr, mrr, cov; split;
        [apply topn_recommendations_rows; [done | done | lia]|];
      split; [|done];
      eapply Forall_impl; [exact Hrecs|]; by intros r [Hnd _]].
  rewrite model_evaluate_returns by (done || lia).
  pose proof (hits_mask_single topn _ _ Hhits) as Hsingle.
  pose proof (hits_mask_length topn _ _ Hlen) as Hmask.
  set (mask := hits_mask_of (index_array recs) holdout topn) in *.
  pose proof (reciprocal_rank_sum_bounds (where_cols mask)) as [Hlo Hhi].
  rewrite (where_cols_length mask Hsingle) in Hhi.
  pose proof (count_true_le (existsb id <$> mask)) as Hle.
  rewrite length_fmap, Hmask in Hle.
  unfold np_mean. rewrite length_fmap, Hmask.
  set (c := count_true _) in *. set (s := np_sum _) in *.
  destruct (length (index_array recs)) as [|u] eqn:Hlu; [by destruct (index_array recs)|].
  do 3 eexists. split; [reflexivity|].
  assert (0 < inject_Z (Z.of_nat (S u)))%Q as Hpos.
  { change 0%Q with (inject_Z 0). rewrite <- Zlt_Qlt. lia. }
  assert (inject_Z (Z.of_nat c) <= inject_Z (Z.of_nat (S u)))%Q as Hcu.
  { rewrite <- Zle_Qle. lia. }
  split_and!.
  - apply Qle_shift_div_l; [done|]. lra.
  - unfold Qdiv. apply Qmult_le_compat_r; [done|].
    apply Qinv_le_0_compat. lra.
  - apply Qle_shift_div_r; [done|]. lra.
  - apply coverage_unit; [by apply np_unique_bounded | lia].
  - apply coverage_unit; [by apply np_unique_bounded | lia].
Qed.

End pipeline.

Lemma pipeline_metrics_witness :
  ∃ recs hr mrr cov,
    topn_recommendations scenario_scores 2 = Ok recs ∧ Forall NoDup recs ∧
    model_evaluate (index_array recs) [1; 0]%Z 4 2 = Ok (Num hr, Num mrr, cov) ∧
    (0 <= mrr)%Q ∧ (mrr <= hr)%Q ∧ (hr <= 1)%Q ∧ (0 <= cov <= 1)%Q.
Proof.
  apply (pipeline_metrics scenario_scores 2 [1; 0]%Z 4 2);
    [reflexivity | done | simpl; lia | reflexivity | simpl; lia].
Defined.

(** ** More on composition *)

Lemma downvote_buffer (scores : ndarray) (data : interactions) :
  ndarray_wf scores →
  ∃ buf, (downvote_seen_items scores data).2
         = mk_ndarray (nrows scores) (ncols scores) buf ∧
    length buf = length (flat scores) ∧
    ∀ k, buf !! k
         = if decide (Forall (in_bounds data.*1 (nrows scores) (ncols scores)) data ∧
                      k < length (flat scores) ∧
                      Z.of_nat k ∈ seen_flat data.*1 (ncols scores) data)
           then Some NegInf else flat scores !! k.
Proof.
  intros Hwf.
  destruct (decide (Forall (in_bounds data.*1 (nrows scores) (ncols scores)) data))
    as [Hb|Hb].
  - destruct (downvote_in_bounds scores data Hwf Hb) as (buf & -> & Hlen & Hlook).
    exists buf. split_and!; [done | done |]. intros k. rewrite Hlook.
    repeat case_decide; try done; exfalso; tauto.
  - rewrite (downvote_out_of_bounds scores data Hb). exists (flat scores).
    split_and!; [by destruct scores | done |]. intros k.
    rewrite decide_False; [done | tauto].
Qed.

(** X16. Two suppressions commute: suppressing one table and then
    another leaves the same matrix as the other order, whether or not
    the calls succeed. *)
Theorem downvote_commute (scores : ndarray) (d1 d2 : interactions) :
  ndarray_wf scores →
  (downvote_seen_items (downvote_seen_items scores d1).2 d2).2
  = (downvote_seen_items (downvote_seen_items scores d2).2 d1).2.
Proof.
  intros Hwf.
  destruct (downvote_buffer scores d1 Hwf) as (b1 & -> & Hl1 & Hk1).
  destruct (downvote_buffer scores d2 Hwf) as (b2 & -> & Hl2 & Hk2).
  destruct (downvote_buffer (mk_ndarray (nrows scores) (ncols scores) b1) d2)
    as (b12 & -> & Hl12 & Hk12).
  { unfold ndarray_wf. simpl. by rewrite Hl1. }
  destruct (downvote_buffer (mk_ndarray (nrows scores) (ncols scores) b2) d1)
    as (b21 & -> & Hl21 & Hk21).
  { unfold ndarray_wf. simpl. by rewrite Hl2. }
  simpl in *. f_equal. apply list_eq. intros k.
  rewrite Hk12, Hk21, Hk1, Hk2, Hl1, Hl2.
  repeat case_decide; try done; exfalso; tauto.
Qed.

Lemma downvote_commute_witness :
  (downvote_seen_items (downvote_seen_items example_scores example_seen).2
     [(3, 1)]%Z).2
  = (downvote_seen_items (downvote_seen_items example_scores [(3, 1)]%Z).2
       example_seen).2.
Proof. apply (downvote_commute example_scores example_seen [(3, 1)]%Z). reflexivity. Defined.

Section nested.
Context `{NS : NumpySort}.

Lemma top_spec_take (a : list score) (k n : nat) :
  k < length a → n ≤ length a - k →
  top_spec a n (take n (selected a k)).
Proof.
  intros Hk Hn. set (rm := selected a k).
  pose proof (selected_sorted a k) as Hs. fold rm in Hs.
  rewrite <- (take_drop n rm), fmap_app in Hs.
  apply StronglySorted_app in Hs as (Hcross & Hs1 & _).
  unfold top_spec. split_and!.
  - rewrite length_take. unfold rm. rewrite selected_length by done. lia.
  - eapply sublist_NoDup; [by apply selected_NoDup | apply sublist_take].
  - apply Forall_take. by apply selected_in_range.
  - exact Hs1.
  - apply Forall_forall. intros i Hi. apply Forall_forall. intros j Hj.
    apply elem_of_seq in Hj.
    destruct (decide (j ∈ take n rm)) as [|Hnj]; [by left|right].
    assert (i ∈ rm) as Hirm.
    { rewrite <- (take_drop n rm). apply elem_of_app. by left. }
    destruct (decide (j ∈ rm)) as [Hjrm|Hjrm].
    + rewrite <- (take_drop n rm) in Hjrm.
      apply elem_of_app in Hjrm as [|Hjd]; [done|].
      apply (Hcross (a !!! i) (a !!! j)); apply list_elem_of_fmap; eauto.
    + apply (selected_top a k); [done | done | lia | done].
Qed.

(** X17. On a row without ties the selections are nested: for
    [1 ≤ n ≤ m ≤ I], the result for [n] is the first [n] entries of the
    result for [m]. *)
Theorem topidx_nested (a : list score) (n m : Z) :
  tie_free a → (1 ≤ n)%Z → (n ≤ m)%Z → (m ≤ Z.of_nat (length a))%Z →
  ∃ rn rm, topidx a n = Ok rn ∧ topidx a m = Ok rm ∧
           rn = take (Z.to_nat n) rm.
Proof.
  intros Htie Hn Hnm Hm.
  assert (cut a n = length a - Z.to_nat n ∧ cut a n < length a) as [Hcn Hkn]
    by (unfold cut; case_match; lia).
  assert (cut a m = length a - Z.to_nat m ∧ cut a m < length a) as [Hcm Hkm]
    by (unfold cut; case_match; lia).
  exists (selected a (cut a n)), (selected a (cut a m)).
  split_and!; [apply topidx_selected; lia | apply topidx_selected; lia |].
  apply (top_spec_unique a (Z.to_nat n)); [done | |].
  - replace (Z.to_nat n) with (length a - cut a n) by lia.
    by apply selected_top_spec.
  - apply top_spec_take; [done | lia].
Qed.

End nested.

Lemma topidx_nested_witness :
  ∃ rn rm, topidx scenario_row0 1 = Ok rn ∧ topidx scenario_row0 3 = Ok rm ∧
           rn = take 1 rm.
Proof.
  apply (topidx_nested scenario_row0 1 3);
    [exact scenario_row0_tie_free | lia | lia | simpl; lia].
Defined.

Lemma count_true_mono (bs bs' : list bool) :
  Forall2 (λ b b', b = true → b' = true) bs bs' → count_true bs ≤ count_true bs'.
Proof.
  induction 1 as [|b b' bs bs' Hb _ IH]; [done|].
  rewrite !count_true_cons. destruct b; [rewrite Hb by done|destruct b']; lia.
Qed.

Lemma slice_to_mono {A} (e e' : Z) (l : list A) (x : A) :
  (0 ≤ e)%Z → (e ≤ e')%Z → x ∈ slice_to e l → x ∈ slice_to e' l.
Proof.
  intros He Hee. unfold slice_to.
  assert ((e <? 0)%Z = false) as -> by lia.
  assert ((e' <? 0)%Z = false) as -> by lia.
  intros Hx. apply elem_of_take in Hx as (i & Hi & Hlt).
  apply elem_of_take. exists i. split; [done | lia].
Qed.

Lemma hits_mono (topn topn' : Z) (recs : list (list Z)) (holdout : list Z) :
  (0 ≤ topn)%Z → (topn ≤ topn')%Z →
  Forall2 (λ b b', b = true → b' = true)
    (existsb id <$> hits_mask_of recs holdout topn)
    (existsb id <$> hits_mask_of recs holdout topn').
Proof.
  intros H0 Hle. unfold hits_mask_of. revert holdout.
  induction recs as [|r recs IH]; intros [|t holdout]; simpl; try constructor.
  - rewrite !existsb_hit. by apply slice_to_mono.
  - apply IH.
Qed.

(** X18. The hit rate never drops when more columns are read: for
    [0 ≤ topn ≤ topn'] and at least one user, [hr] at [topn] is at most
    [hr] at [topn']. *)
Theorem hit_rate_monotone (recs : list (list Z)) (holdout : list Z)
    (n_items topn topn' : Z) :
  length recs = length holdout → recs ≠ [] → n_items ≠ 0%Z →
  (0 ≤ topn)%Z → (topn ≤ topn')%Z →
  ∃ hr mrr cov hr' mrr' cov',
    model_evaluate recs holdout n_items topn = Ok (Num hr, mrr, cov) ∧
    model_evaluate recs holdout n_items topn' = Ok (Num hr', mrr', cov') ∧
    (hr <= hr')%Q.
Proof.
  intros Heq Hne Hn H0 Hle. rewrite !model_evaluate_returns by done.
  pose proof (count_true_mono _ _ (hits_mono topn topn' recs holdout H0 Hle)) as Hc.
  unfold np_mean. rewrite !length_fmap, !hits_mask_length by done.
  set (c := count_true _) in *. set (c' := count_true _) in *.
  destruct (length recs) as [|u] eqn:Hu; [by destruct recs|].
  do 6 eexists. split; [reflexivity|]. split; [reflexivity|].
  unfold Qdiv. apply Qmult_le_compat_r.
  - rewrite <- Zle_Qle. lia.
  - apply Qinv_le_0_compat. change 0%Q with (inject_Z 0). rewrite <- Zle_Qle. lia.
Qed.

Lemma hit_rate_monotone_witness :
  ∃ hr mrr cov hr' mrr' cov',
    model_evaluate [[1; 2]; [2; 0]]%Z [1; 0]%Z 4 1 = Ok (Num hr, mrr, cov) ∧
    model_evaluate [[1; 2]; [2; 0]]%Z [1; 0]%Z 4 2 = Ok (Num hr', mrr', cov') ∧
    (hr <= hr')%Q.
Proof.
  apply (hit_rate_monotone [[1; 2]; [2; 0]]%Z [1; 0]%Z 4 1 2);
    [reflexivity | discriminate | lia | lia | lia].
Defined.
